(** * The week01 chat server: registry, broadcast, whisper and session loop

    A shallow embedding of [src/week01/chat_server.py].

    - Python [str] values are lists of Unicode code points; literals of the
      source are written as UTF-8 string literals and decoded by [u].
    - The two dicts of [ChatServer] are insertion-ordered association lists
      (the order in which [broadcast] iterates is the order of insertion).
    - Sockets are identified by a number (the identity of the socket object).
    - Every effect on the outside world (taking and releasing
      [clients_lock], [sendall], [close], [print]) is recorded, in program
      order, in the [trace] of the world.  Whether a [sendall] raises is
      decided by an arbitrary oracle that sees the whole history.
    - What a session reads with [recv] is given as the list of the results of
      its successive [recv] calls; when that list is exhausted the thread is
      parked in [recv] ([Blocked]). *)

From Stdlib Require Import List PeanoNat NArith Bool String Ascii Lia.
Import ListNotations.

Open Scope N_scope.

(** ** Python strings *)

Definition str := list N.

Definition str_eq_dec : forall a b : str, {a = b} + {a <> b} :=
  list_eq_dec N.eq_dec.

(** Decoder for the (well-formed) UTF-8 literals written in this file. *)
Fixpoint utf8_decode (bs : list N) : str :=
  match bs with
  | [] => []
  | b0 :: r0 =>
    if b0 <? 128 then b0 :: utf8_decode r0
    else match r0 with
      | [] => []
      | b1 :: r1 =>
        if b0 <? 224 then ((b0 - 192) * 64 + (b1 - 128)) :: utf8_decode r1
        else match r1 with
          | [] => []
          | b2 :: r2 =>
            if b0 <? 240
            then ((b0 - 224) * 4096 + (b1 - 128) * 64 + (b2 - 128))
                   :: utf8_decode r2
            else match r2 with
              | [] => []
              | b3 :: r3 =>
                ((b0 - 240) * 262144 + (b1 - 128) * 4096
                 + (b2 - 128) * 64 + (b3 - 128)) :: utf8_decode r3
              end
          end
      end
  end.

Definition u (s : string) : str :=
  utf8_decode (map N_of_ascii (list_ascii_of_string s)).

(** ['\n'] *)
Definition NL : str := [10].

(** [c.isspace()] for one code point (CPython's [_PyUnicode_IsWhitespace]). *)
Definition isspace (c : N) : bool :=
  ((9 <=? c) && (c <=? 13)) || ((28 <=? c) && (c <=? 32))
  || (c =? 133) || (c =? 160) || (c =? 5760)
  || ((8192 <=? c) && (c <=? 8202))
  || (c =? 8232) || (c =? 8233) || (c =? 8239) || (c =? 8287) || (c =? 12288).

Fixpoint lstrip (s : str) : str :=
  match s with
  | [] => []
  | c :: r => if isspace c then lstrip r else s
  end.

Definition rstrip (s : str) : str := rev (lstrip (rev s)).

(** [s.strip()] *)
Definition strip (s : str) : str := rstrip (lstrip s).

(** [s.startswith(p)] *)
Fixpoint startswith (s p : str) : bool :=
  match p, s with
  | [], _ => true
  | _ :: _, [] => false
  | a :: p', b :: s' => (a =? b) && startswith s' p'
  end.

(** [s.split(sep, maxsplit)] for a one-character separator: [acc] is the
    part being read. *)
Fixpoint split_at (sep : N) (maxsplit : nat) (acc s : str) : list str :=
  match s with
  | [] => [acc]
  | c :: r =>
    match maxsplit with
    | O => [acc ++ s]
    | S m =>
      if c =? sep then acc :: split_at sep m [] r
      else split_at sep maxsplit (acc ++ [c]) r
    end
  end.

Definition split (sep : N) (maxsplit : nat) (s : str) : list str :=
  split_at sep maxsplit [] s.

(** [sep.join(parts)] *)
Fixpoint join (sep : N) (parts : list str) : str :=
  match parts with
  | [] => []
  | [p] => p
  | p :: rest => p ++ sep :: join sep rest
  end.

(** [str.lower] restricted to the ASCII letters; the instance of the
    [lower] parameter used to run the model on ASCII command lines. *)
Definition ascii_lower (s : str) : str :=
  map (fun c => if (65 <=? c) && (c <=? 90) then c + 32 else c) s.

(** Truth value of an [Optional[str]]: [None] and [''] are false. *)
Definition truthy (o : option str) : bool :=
  match o with
  | Some (_ :: _) => true
  | _ => false
  end.

(** ** Python dicts (insertion ordered) *)

Class EqDec (K : Type) := eq_dec : forall x y : K, {x = y} + {x <> y}.

Definition sock := N.

#[global] Instance sock_EqDec : EqDec sock := N.eq_dec.
#[global] Instance str_EqDec : EqDec str := str_eq_dec.

Section Dict.
Context {K V : Type} `{EqDec K}.

Definition dict := list (K * V).

(** [d.get(k)] *)
Fixpoint dict_get (k : K) (d : dict) : option V :=
  match d with
  | [] => None
  | (k', v) :: r => if eq_dec k k' then Some v else dict_get k r
  end.

(** [k in d] *)
Definition dict_contains (k : K) (d : dict) : bool :=
  match dict_get k d with
  | Some _ => true
  | None => false
  end.

(** [d[k] = v]: an existing key keeps its place, a new key goes last. *)
Fixpoint dict_set (k : K) (v : V) (d : dict) : dict :=
  match d with
  | [] => [(k, v)]
  | (k', v') :: r =>
    if eq_dec k k' then (k, v) :: r else (k', v') :: dict_set k v r
  end.

(** [d] without its binding of [k] (a dict has at most one). *)
Definition dict_remove (k : K) (d : dict) : dict :=
  filter (fun kv => if eq_dec k (fst kv) then false else true) d.

(** [d.pop(k, None)]: the value and the dict left. *)
Definition dict_pop (k : K) (d : dict) : option V * dict :=
  (dict_get k d, dict_remove k d).

(** [d.keys()] *)
Definition dict_keys (d : dict) : list K := map fst d.
End Dict.

Arguments dict : clear implicits.

(** ** Exceptions, events and the world *)

(** The two classes of exception the source distinguishes:
    [ConnectionResetError] (a subclass of [OSError]) and any other [OSError]. *)
Inductive exn := ConnectionResetError | OSError.

Inductive event :=
| Acquire                                        (* clients_lock taken *)
| Release                                        (* clients_lock released *)
| Sendall (s : sock) (payload : str) (r : option exn)
                                                 (* s.sendall(payload); r = what it raised *)
| Close (s : sock)                               (* s.close() *)
| Print (line : str).                            (* print(line) *)

(** One [recv(4096)] of a session's socket: the chunk read, decoded with
    [errors='ignore']; end of stream ([b'']); or an exception. *)
Inductive recv_result :=
| Data (text : str)
| EOF
| RecvError (e : exn).

Record World := mkWorld {
  name_by_sock : dict sock str;      (* self.name_by_sock *)
  sockets_by_name : dict str sock;   (* self.sockets_by_name *)
  trace : list event
}.

Definition initial : World := mkWorld [] [] [].

Definition log (e : event) (w : World) : World :=
  mkWorld (name_by_sock w) (sockets_by_name w) (trace w ++ [e]).

(** How a piece of code ends: normally, by an exception, or parked in a
    [recv] that never returns. *)
Inductive result (A : Type) :=
| Ok (a : A)
| Raise (e : exn)
| Blocked.

Arguments Ok {A} a.
Arguments Raise {A} e.
Arguments Blocked {A}.

Definition M (A : Type) : Type := World -> result A * World.

Definition ret {A} (a : A) : M A := fun w => (Ok a, w).

Definition bind {A B} (m : M A) (k : A -> M B) : M B :=
  fun w =>
    match m w with
    | (Ok a, w1) => k a w1
    | (Raise e, w1) => (Raise e, w1)
    | (Blocked, w1) => (Blocked, w1)
    end.

Definition raise {A} (e : exn) : M A := fun w => (Raise e, w).

Definition block {A} : M A := fun w => (Blocked, w).

Definition emit (e : event) : M unit := fun w => (Ok tt, log e w).

(** Reading the state. *)
Definition gets {A} (f : World -> A) : M A := fun w => (Ok (f w), w).

(** [self.name_by_sock.pop(k, None)] *)
Definition name_by_sock_pop (k : sock) : M (option str) :=
  fun w =>
    let (v, d) := dict_pop k (name_by_sock w) in
    (Ok v, mkWorld d (sockets_by_name w) (trace w)).

(** [self.sockets_by_name.pop(k, None)] *)
Definition sockets_by_name_pop (k : str) : M (option sock) :=
  fun w =>
    let (v, d) := dict_pop k (sockets_by_name w) in
    (Ok v, mkWorld (name_by_sock w) d (trace w)).

(** [self.name_by_sock[k] = v] *)
Definition name_by_sock_set (k : sock) (v : str) : M unit :=
  fun w =>
    (Ok tt, mkWorld (dict_set k v (name_by_sock w)) (sockets_by_name w) (trace w)).

(** [self.sockets_by_name[k] = v] *)
Definition sockets_by_name_set (k : str) (v : sock) : M unit :=
  fun w =>
    (Ok tt, mkWorld (name_by_sock w) (dict_set k v (sockets_by_name w)) (trace w)).

(** [self.name_by_sock.clear(); self.sockets_by_name.clear()] *)
Definition clear_maps : M unit :=
  fun w => (Ok tt, mkWorld [] [] (trace w)).

Declare Scope monad_scope.
Delimit Scope monad_scope with monad.
Notation "x <- m ;; k" := (bind m (fun x => k))
  (at level 61, m at next level, right associativity) : monad_scope.
Notation "m ;; k" := (bind m (fun _ => k))
  (at level 61, right associativity) : monad_scope.
Open Scope monad_scope.

(** [try: m / except OSError: h] (both exception classes are [OSError]s). *)
Definition try_except_OSError {A} (m h : M A) : M A :=
  fun w =>
    match m w with
    | (Raise _, w1) => h w1
    | r => r
    end.

(** [with self.clients_lock: m] *)
Definition with_clients_lock {A} (m : M A) : M A :=
  fun w => let (r, w1) := m (log Acquire w) in (r, log Release w1).

(** [s.close()] *)
Definition close (s : sock) : M unit := emit (Close s).

(** ** Reading traces *)

(** The [sendall] calls of a trace that raised, and those that did not. *)
Fixpoint failed_sends (evs : list event) : list sock :=
  match evs with
  | [] => []
  | Sendall s _ (Some _) :: r => s :: failed_sends r
  | _ :: r => failed_sends r
  end.

Fixpoint delivered (evs : list event) : list (sock * str) :=
  match evs with
  | [] => []
  | Sendall s p None :: r => (s, p) :: delivered r
  | _ :: r => delivered r
  end.

(** Every [sendall] attempted, with its payload. *)
Fixpoint attempted (evs : list event) : list (sock * str) :=
  match evs with
  | [] => []
  | Sendall s p _ :: r => (s, p) :: attempted r
  | _ :: r => attempted r
  end.

Fixpoint closed (evs : list event) : list sock :=
  match evs with
  | [] => []
  | Close s :: r => s :: closed r
  | _ :: r => closed r
  end.

Fixpoint printed (evs : list event) : list str :=
  match evs with
  | [] => []
  | Print l :: r => l :: printed r
  | _ :: r => printed r
  end.

(** The [sendall] calls made while [clients_lock] is held; [held] is the
    state of the lock before [evs]. *)
Fixpoint sends_under_lock (held : bool) (evs : list event) : list (sock * str) :=
  match evs with
  | [] => []
  | Acquire :: r => sends_under_lock true r
  | Release :: r => sends_under_lock false r
  | Sendall s p _ :: r =>
    if held then (s, p) :: sends_under_lock held r else sends_under_lock held r
  | _ :: r => sends_under_lock held r
  end.

(** The [sendall] calls made while the lock is not held. *)
Fixpoint sends_outside_lock (held : bool) (evs : list event) : list (sock * str) :=
  match evs with
  | [] => []
  | Acquire :: r => sends_outside_lock true r
  | Release :: r => sends_outside_lock false r
  | Sendall s p _ :: r =>
    if held then sends_outside_lock held r else (s, p) :: sends_outside_lock held r
  | _ :: r => sends_outside_lock held r
  end.

(** Number of times the lock is taken. *)
Fixpoint acquisitions (evs : list event) : nat :=
  match evs with
  | [] => O
  | Acquire :: r => S (acquisitions r)
  | _ :: r => acquisitions r
  end.

(** ** Literals of the source *)

Definition PROMPT : str := Eval vm_compute in u "닉네임을 입력하세요: ".
Definition BLANK_NAME : str :=
  Eval vm_compute in u "닉네임은 공백일 수 없습니다. 다시 입력: ".
Definition NAME_IN_USE : str :=
  Eval vm_compute in u "이미 사용 중인 닉네임입니다. 다른 닉네임을 입력: ".
Definition ENTERED : str := Eval vm_compute in u "님이 입장하셨습니다.".
Definition LEFT : str := Eval vm_compute in u "님이 퇴장하셨습니다.".
Definition QUIT : str := Eval vm_compute in u "/종료".
Definition USAGE : str :=
  Eval vm_compute in u "시스템> 사용법: /w 대상닉네임 메시지" ++ NL.
Definition SEND_FAILED : str :=
  Eval vm_compute in u "시스템> 전송 실패(상대 연결 상태를 확인하세요)." ++ NL.
Definition SERVER_STOPPED : str := Eval vm_compute in u "시스템> 서버가 종료되었습니다.".
Definition W_SHORT : str := Eval vm_compute in u "/w ".
Definition W_LONG : str := Eval vm_compute in u "/whisper ".
Definition W_KOREAN : str := Eval vm_compute in u "/귓속말 ".
Definition WHISPER_TAG : str := Eval vm_compute in u "(귓속말) ".
Definition GT : str := Eval vm_compute in u "> ".
Definition ARROW : str := Eval vm_compute in u " -> ".

Definition NOT_FOUND_HEAD : str := Eval vm_compute in u "시스템> 닉네임 '".
Definition NOT_FOUND_TAIL : str :=
  Eval vm_compute in u "' 사용자를 찾을 수 없습니다." ++ NL.

(** [f'시스템> 닉네임 \'{target_name}\' 사용자를 찾을 수 없습니다.\n'] *)
Definition not_found_notice (target_name : str) : str :=
  NOT_FOUND_HEAD ++ target_name ++ NOT_FOUND_TAIL.

(** [f'(귓속말) {sender_name}> {text}\n'] *)
Definition whisper_to_target (sender_name text : str) : str :=
  WHISPER_TAG ++ sender_name ++ GT ++ text ++ NL.

(** [f'(귓속말) {sender_name} -> {target_name}> {text}\n'] *)
Definition whisper_to_sender (sender_name target_name text : str) : str :=
  WHISPER_TAG ++ sender_name ++ ARROW ++ target_name ++ GT ++ text ++ NL.

(** ** Auxiliary definitions for the statements *)

(** The events a piece of code adds to the trace when run from [w]. *)
Definition events_of {A} (m : M A) (w : World) : list event :=
  skipn (List.length (trace w)) (trace (snd (m w))).

(** The maps of a world, without its trace. *)
Definition registry (w : World) : dict sock str * dict str sock :=
  (name_by_sock w, sockets_by_name w).

(** The state [_unsafe_remove] leaves. *)
Definition evict (s : sock) (w : World) : World :=
  match dict_get s (name_by_sock w) with
  | Some n =>
    mkWorld (dict_remove s (name_by_sock w))
            (dict_remove n (sockets_by_name w)) (trace w)
  | None => mkWorld (dict_remove s (name_by_sock w)) (sockets_by_name w) (trace w)
  end.

Definition evict_all (dead : list sock) (w : World) : World :=
  fold_left (fun w s => evict s w) dead w.

Definition mem_sock (s : sock) (l : list sock) : bool :=
  existsb (N.eqb s) l.

(** The Registry invariant of the data model: both dicts have unique keys,
    the two directions agree, and nicknames are non-empty. *)
Definition consistent (w : World) : Prop :=
  NoDup (dict_keys (name_by_sock w)) /\
  NoDup (dict_keys (sockets_by_name w)) /\
  (forall s n, dict_get s (name_by_sock w) = Some n <->
               dict_get n (sockets_by_name w) = Some s) /\
  (forall s, dict_get s (name_by_sock w) <> Some []).

(** The part of the invariant that needs no uniqueness of nicknames: the
    connections are listed once, and every nickname entry has its reverse
    entry. *)
Definition backed (w : World) : Prop :=
  NoDup (dict_keys (name_by_sock w)) /\
  (forall n s, dict_get n (sockets_by_name w) = Some s ->
               dict_get s (name_by_sock w) = Some n).

(** A checker for [consistent]. *)
Fixpoint nodupb {A} (eqb : A -> A -> bool) (l : list A) : bool :=
  match l with
  | [] => true
  | x :: r => negb (existsb (eqb x) r) && nodupb eqb r
  end.

Definition str_eqb (a b : str) : bool :=
  if str_eq_dec a b then true else false.

Definition consistentb (w : World) : bool :=
  nodupb N.eqb (dict_keys (name_by_sock w))
  && nodupb str_eqb (dict_keys (sockets_by_name w))
  && forallb (fun sn =>
                match dict_get (snd sn) (sockets_by_name w) with
                | Some s => (s =? fst sn) && negb (str_eqb (snd sn) [])
                | None => false
                end) (name_by_sock w)
  && forallb (fun ns =>
                match dict_get (snd ns) (name_by_sock w) with
                | Some n => str_eqb n (fst ns)
                | None => false
                end) (sockets_by_name w).

(** A submitted line that the negotiation turns down, given the nickname
    map: blank after trimming, or already a key. *)
Definition rejected (names : dict str sock) (data : str) : Prop :=
  strip data = [] \/ dict_contains (strip data) names = true.

(** Only re-prompts, to the client itself. *)
Definition reprompts (s : sock) (evs : list event) : Prop :=
  (forall s' p, In (s', p) (attempted evs) ->
                s' = s /\ In p [PROMPT; BLANK_NAME; NAME_IN_USE]) /\
  closed evs = [].

(** "No send is made while the lock is held", for the events of an
    operation entered without the lock. *)
Definition no_send_under_lock (evs : list event) : Prop :=
  sends_under_lock false evs = [].

(** "Something was logged". *)
Definition logged (evs : list event) : Prop := printed evs <> [].

(** The peer closes its end, or the connection breaks, at some point: some
    [recv] returns no data or raises. *)
Definition hangs_up (inputs : list recv_result) : bool :=
  existsb (fun r => match r with Data _ => false | _ => true end) inputs.

(** A property of the two maps (the trace does not matter) that every
    eviction keeps. *)
Definition eviction_stable (P : World -> Prop) : Prop :=
  (forall w w', registry w = registry w' -> P w -> P w') /\
  (forall x w, P w -> P (evict x w)).

(** Sample data: a network on which nothing fails, one on which every
    [sendall] to socket [d] raises, and a registry with two clients. *)
Definition net_ok : list event -> sock -> str -> option exn :=
  fun _ _ _ => None.

Definition net_dead (d : sock) : list event -> sock -> str -> option exn :=
  fun _ s _ => if s =? d then Some OSError else None.

(** Every [sendall] to [d] raises once a first one has been made. *)
Definition net_dies (d : sock) : list event -> sock -> str -> option exn :=
  fun hist s _ =>
    if (s =? d) && existsb (fun sp => fst sp =? d) (attempted hist)
    then Some OSError else None.

(** Every [sendall] to [d] raises once [k] of them have been made. *)
Definition net_dies_after (k : nat) (d : sock)
    : list event -> sock -> str -> option exn :=
  fun hist s _ =>
    if (s =? d)
       && Nat.leb k (List.length (filter (fun sp => fst sp =? d) (attempted hist)))
    then Some OSError else None.

Definition alice : str := Eval vm_compute in u "alice".
Definition bob : str := Eval vm_compute in u "bob".
Definition carol : str := Eval vm_compute in u "carol".

Definition hi_there : str := Eval vm_compute in u "hi there".

Definition w_ab : World :=
  mkWorld [(1, alice); (2, bob)] [(alice, 1); (bob, 2)] [].

Definition w_abc : World :=
  mkWorld [(1, alice); (2, bob); (3, carol)]
          [(alice, 1); (bob, 2); (carol, 3)] [].

(** ** The server *)

Section ChatServer.

(** [str.lower]: the interpreter's Unicode lower-casing, not part of the
    repository. *)
Variable lower : str -> str.

(** The network: what [s.sendall(payload)] raises ([None]: nothing), given
    everything that happened before. *)
Variable net : list event -> sock -> str -> option exn.

(** [s.sendall(payload.encode('utf-8'))] *)
Definition sendall (s : sock) (payload : str) : M unit :=
  fun w =>
    let r := net (trace w) s payload in
    (match r with None => Ok tt | Some e => Raise e end,
     log (Sendall s payload r) w).

(** [try: s.sendall(payload) / except OSError: ...]; tells whether the
    [except] branch was not taken. *)
Definition try_sendall (s : sock) (payload : str) : M bool :=
  try_except_OSError (sendall s payload ;; ret true) (ret false).

(** [send_whisper]; the dict argument is [self.sockets_by_name] itself. *)
Definition send_whisper (sender_name target_name text : str)
    (sender_sock : sock) : M unit :=
  target_sock <- gets (fun w => dict_get target_name (sockets_by_name w)) ;;
  match target_sock with
  | None =>
    try_sendall sender_sock (not_found_notice target_name) ;; ret tt
  | Some target_sock =>
    sent <- try_sendall target_sock (whisper_to_target sender_name text) ;;
    if sent : bool
    then try_sendall sender_sock
           (whisper_to_sender sender_name target_name text) ;; ret tt
    else try_sendall sender_sock SEND_FAILED ;; ret tt
  end.

(** The events of [send_whisper] run in [w]. *)
Definition send_whisper_events (sender_name target_name text : str)
    (sender_sock : sock) (w : World) : list event :=
  match dict_get target_name (sockets_by_name w) with
  | None =>
    let p := not_found_notice target_name in
    [Sendall sender_sock p (net (trace w) sender_sock p)]
  | Some target_sock =>
    let p1 := whisper_to_target sender_name text in
    let r1 := net (trace w) target_sock p1 in
    let e1 := Sendall target_sock p1 r1 in
    let p2 := match r1 with
              | None => whisper_to_sender sender_name target_name text
              | Some _ => SEND_FAILED
              end in
    [e1; Sendall sender_sock p2 (net (trace w ++ [e1]) sender_sock p2)]
  end.

(** [ChatServer._unsafe_remove] *)
Definition _unsafe_remove (client_sock : sock) : M unit :=
  name <- name_by_sock_pop client_sock ;;
  match name with
  | Some n => sockets_by_name_pop n ;; ret tt
  | None => ret tt
  end.

(** The first loop of [broadcast]: one [sendall] per socket, the sockets
    whose [sendall] raised are appended to [dead_sockets]. *)
Fixpoint broadcast_sends (payload : str) (socks dead_sockets : list sock)
    : M (list sock) :=
  match socks with
  | [] => ret dead_sockets
  | s :: rest =>
    sent <- try_sendall s payload ;;
    broadcast_sends payload rest
      (if sent : bool then dead_sockets else dead_sockets ++ [s])
  end.

(** The events of that loop, from the history [hist]. *)
Fixpoint send_events (hist : list event) (payload : str) (socks : list sock)
    : list event :=
  match socks with
  | [] => []
  | s :: rest =>
    let e := Sendall s payload (net hist s payload) in
    e :: send_events (hist ++ [e]) payload rest
  end.

(** The second loop of [broadcast]. *)
Fixpoint remove_dead (dead_sockets : list sock) : M unit :=
  match dead_sockets with
  | [] => ret tt
  | s :: rest => _unsafe_remove s ;; remove_dead rest
  end.

(** [ChatServer.broadcast] *)
Definition broadcast (message : str) : M unit :=
  let payload := message ++ NL in
  with_clients_lock
    (socks <- gets (fun w => dict_keys (name_by_sock w)) ;;
     dead_sockets <- broadcast_sends payload socks [] ;;
     remove_dead dead_sockets).

(** The events of the first loop of a broadcast started in [w]. *)
Definition broadcast_events (message : str) (w : World) : list event :=
  send_events (trace w ++ [Acquire]) (message ++ NL) (dict_keys (name_by_sock w)).

(** How one pass of the loop of [_negotiate_unique_name] that reached the
    locked block leaves it. *)
Inductive name_check := NameFree | NameTaken | GiveUp.

(** [ChatServer._negotiate_unique_name]; also returns the [recv] results not
    consumed. *)
Fixpoint _negotiate_unique_name (client_sock : sock) (inputs : list recv_result)
    : M (option str * list recv_result) :=
  match inputs with
  | [] => block
  | RecvError e :: _ => raise e
  | EOF :: rest => ret (None, rest)
  | Data data :: rest =>
    let name := strip data in
    match name with
    | [] =>
      sent <- try_sendall client_sock BLANK_NAME ;;
      if sent : bool then _negotiate_unique_name client_sock rest
      else ret (None, rest)
    | _ :: _ =>
      c <- with_clients_lock
             (taken <- gets (fun w => dict_contains name (sockets_by_name w)) ;;
              if taken : bool
              then sent <- try_sendall client_sock NAME_IN_USE ;;
                   ret (if sent : bool then NameTaken else GiveUp)
              else ret NameFree) ;;
      match c with
      | NameFree => ret (Some name, rest)
      | NameTaken => _negotiate_unique_name client_sock rest
      | GiveUp => ret (None, rest)
      end
    end
  end.

(** [ChatServer._is_whisper_command] *)
Definition _is_whisper_command (msg : str) : bool :=
  let lowered := lower msg in
  startswith lowered W_SHORT || startswith lowered W_LONG
  || startswith lowered W_KOREAN.

(** [ChatServer._parse_whisper] *)
Definition _parse_whisper (msg : str) : option str * option str :=
  match split 32 2 msg with
  | _ :: p1 :: p2 :: _ =>
    let target := strip p1 in
    let text := strip p2 in
    match target, text with
    | _ :: _, _ :: _ => (Some target, Some text)
    | _, _ => (None, None)
    end
  | _ => (None, None)
  end.

(** [ChatServer._remove_client] *)
Definition _remove_client (client_sock : sock) : M unit :=
  name <- with_clients_lock
            (name <- gets (fun w => dict_get client_sock (name_by_sock w)) ;;
             _unsafe_remove client_sock ;;
             ret name) ;;
  (if truthy name
   then match name with
        | Some n => broadcast (n ++ LEFT)
        | None => ret tt
        end
   else ret tt) ;;
  close client_sock.

(** Lines 113-115 of [handle_client]: the insertion of the pair. *)
Definition register (client_sock : sock) (name : str) : M unit :=
  with_clients_lock
    (name_by_sock_set client_sock name ;;
     sockets_by_name_set name client_sock).

(** What [handle_client] does with one line [msg] that is neither empty nor
    the quit token (lines 133-153). *)
Definition route (name : str) (client_sock : sock) (msg : str) : M unit :=
  if _is_whisper_command msg then
    let (target, text) := _parse_whisper msg in
    if truthy target && truthy text then
      match target, text with
      | Some target, Some text => send_whisper name target text client_sock
      | _, _ => ret tt
      end
    else try_sendall client_sock USAGE ;; ret tt
  else broadcast (name ++ GT ++ msg).

(** The [while True] loop of [handle_client] (lines 119-153). *)
Fixpoint message_loop (name : str) (client_sock : sock)
    (inputs : list recv_result) : M unit :=
  match inputs with
  | [] => block
  | RecvError e :: _ => raise e
  | EOF :: _ => ret tt
  | Data data :: rest =>
    let msg := strip data in
    match msg with
    | [] => message_loop name client_sock rest
    | _ :: _ =>
      if str_eq_dec msg QUIT then ret tt
      else route name client_sock msg ;; message_loop name client_sock rest
    end
  end.

(** Lines 107-108 of [handle_client]: prompt and negotiation. *)
Definition greet (client_sock : sock) (inputs : list recv_result)
    : M (option str * list recv_result) :=
  sendall client_sock PROMPT ;;
  _negotiate_unique_name client_sock inputs.

(** Lines 109-153 of [handle_client], after the negotiation returned [name]. *)
Definition serve (client_sock : sock) (name : option str)
    (inputs : list recv_result) : M unit :=
  match name with
  | Some ((_ :: _) as name) =>
    register client_sock name ;;
    broadcast (name ++ ENTERED) ;;
    message_loop name client_sock inputs
  | _ => close client_sock
  end.

(** The [try] block of [handle_client]. *)
Definition handle_client_try (client_sock : sock) (inputs : list recv_result)
    : M unit :=
  r <- greet client_sock inputs ;;
  serve client_sock (fst r) (snd r).

(** [try: body / except ConnectionResetError: pass / finally:
    self._remove_client(client_sock)].  A thread parked in [recv] has not
    reached its [finally] block. *)
Definition try_finally_remove (body : M unit) (client_sock : sock) : M unit :=
  fun w =>
    match body w with
    | (Blocked, w1) => (Blocked, w1)
    | (Ok _, w1) => _remove_client client_sock w1
    | (Raise ConnectionResetError, w1) => _remove_client client_sock w1
    | (Raise OSError, w1) =>
      match _remove_client client_sock w1 with
      | (Ok _, w2) => (Raise OSError, w2)
      | r => r
      end
    end.

(** [ChatServer.handle_client] *)
Definition handle_client (client_sock : sock) (inputs : list recv_result)
    : M unit :=
  try_finally_remove (handle_client_try client_sock inputs) client_sock.

(** The loop of [shutdown] that closes every registered socket. *)
Fixpoint close_all (socks : list sock) : M unit :=
  match socks with
  | [] => ret tt
  | s :: rest => close s ;; close_all rest
  end.

(** [ChatServer.shutdown] *)
Definition shutdown (server_sock : sock) : M unit :=
  with_clients_lock
    (socks <- gets (fun w => dict_keys (name_by_sock w)) ;;
     close_all socks ;;
     clear_maps) ;;
  close server_sock ;;
  emit (Print SERVER_STOPPED).

(** The states of the server: the lock makes each locked block atomic, and
    between two of them the threads interleave freely.  A pair is inserted
    for a connection that has none; that its nickname is still free was
    checked in an earlier locked block, so it is not known here. *)
Inductive reachable : World -> Prop :=
| reach_initial : reachable initial
| reach_register s name w :
    reachable w -> name <> [] -> dict_get s (name_by_sock w) = None ->
    reachable (snd (register s name w))
| reach_broadcast message w :
    reachable w -> reachable (snd (broadcast message w))
| reach_remove s w :
    reachable w -> reachable (snd (_remove_client s w))
| reach_whisper sender target text s w :
    reachable w -> reachable (snd (send_whisper sender target text s w))
| reach_event e w :
    reachable w -> reachable (log e w).


(** ** The literals, as code points *)

Arguments strip : simpl never.
Arguments split : simpl never.

Lemma literals_decoded :
  QUIT = [47; 51333; 47308] /\
  W_SHORT = [47; 119; 32] /\
  W_KOREAN = [47; 44499; 49549; 47568; 32] /\
  WHISPER_TAG = [40; 44499; 49549; 47568; 41; 32] /\
  GT = [62; 32] /\ ARROW = [32; 45; 62; 32].
Proof. repeat split. Qed.

Lemma strip_examples :
  strip (u "  alice ") = alice /\ strip (u " ") = [] /\
  strip (12288 :: alice ++ [10]) = alice.
Proof. repeat split. Qed.

Lemma split_examples :
  split 32 2 (u "/w bob hi there") = [u "/w"; bob; hi_there] /\
  split 32 2 (u "/w bob") = [u "/w"; bob] /\
  split 32 2 (u "/w  bob hi") = [u "/w"; []; u "bob hi"] /\
  split 32 2 [] = [[]].
Proof. repeat split. Qed.

(** ** Dict lemmas *)

Section DictFacts.
Context {K V : Type} `{EqDec K}.
Implicit Types (d : dict K V) (k : K) (v : V).

Lemma dict_get_remove_same k d : dict_get k (dict_remove k d) = None.
Proof.
  induction d as [|[k' v'] d IH]; simpl; auto.
  destruct (eq_dec k k') as [->|Hne]; simpl; auto.
  destruct (eq_dec k k'); [contradiction|auto].
Qed.

Lemma dict_get_remove_other k k' d :
  k <> k' -> dict_get k (dict_remove k' d) = dict_get k d.
Proof.
  intros Hne. induction d as [|[k0 v0] d IH]; simpl; auto.
  destruct (eq_dec k' k0) as [->|Hne0]; simpl.
  - destruct (eq_dec k k0); [contradiction|auto].
  - destruct (eq_dec k k0); auto.
Qed.

Lemma dict_get_set_same k v d : dict_get k (dict_set k v d) = Some v.
Proof.
  induction d as [|[k' v'] d IH]; simpl.
  - destruct (eq_dec k k); [auto|contradiction].
  - destruct (eq_dec k k') as [->|Hne]; simpl.
    + destruct (eq_dec k' k'); [auto|contradiction].
    + destruct (eq_dec k k'); [contradiction|auto].
Qed.

Lemma dict_get_set_other k k' v d :
  k <> k' -> dict_get k (dict_set k' v d) = dict_get k d.
Proof.
  intros Hne. induction d as [|[k0 v0] d IH]; simpl.
  - destruct (eq_dec k k'); [contradiction|auto].
  - destruct (eq_dec k' k0) as [->|Hne0]; simpl.
    + destruct (eq_dec k k0); [contradiction|auto].
    + destruct (eq_dec k k0); auto.
Qed.

Lemma dict_get_In_keys k v d : dict_get k d = Some v -> In k (dict_keys d).
Proof.
  induction d as [|[k' v'] d IH]; simpl; [discriminate|].
  destruct (eq_dec k k') as [->|Hne]; auto.
Qed.

Lemma dict_get_None_keys k d : dict_get k d = None <-> ~ In k (dict_keys d).
Proof.
  induction d as [|[k' v'] d IH]; simpl.
  - split; auto.
  - destruct (eq_dec k k') as [->|Hne].
    + split; [discriminate|]. intros Hn. exfalso. apply Hn. auto.
    + rewrite IH. split.
      * intros Hn [He|Hi]; [congruence|auto].
      * intros Hn Hi. apply Hn. auto.
Qed.

Lemma dict_get_In k v d : dict_get k d = Some v -> In (k, v) d.
Proof.
  induction d as [|[k' v'] d IH]; simpl; [discriminate|].
  destruct (eq_dec k k') as [->|Hne].
  - intros [= ->]. auto.
  - auto.
Qed.

Lemma dict_In_get k v d : NoDup (dict_keys d) -> In (k, v) d -> dict_get k d = Some v.
Proof.
  induction d as [|[k' v'] d IH]; simpl; [tauto|].
  intros Hnd [Heq|Hin].
  - injection Heq as -> ->. destruct (eq_dec k k); [auto|contradiction].
  - inversion Hnd as [|? ? Hni Hnd']; subst.
    destruct (eq_dec k k') as [->|Hne]; auto.
    exfalso. apply Hni. change (In (fst (k', v)) (map fst d)). now apply in_map.
Qed.

Lemma dict_keys_remove k d :
  dict_keys (dict_remove k d)
  = filter (fun k' => if eq_dec k k' then false else true) (dict_keys d).
Proof.
  induction d as [|[k' v'] d IH]; simpl; auto.
  destruct (eq_dec k k'); simpl; congruence.
Qed.

Lemma dict_remove_absent k d : ~ In k (dict_keys d) -> dict_remove k d = d.
Proof.
  induction d as [|[k' v'] d IH]; simpl; auto.
  intros Hn. destruct (eq_dec k k') as [->|Hne].
  - exfalso. auto.
  - f_equal. auto.
Qed.

Lemma NoDup_filter {A} (f : A -> bool) (l : list A) : NoDup l -> NoDup (filter f l).
Proof.
  induction 1 as [|x l Hni Hnd IH]; simpl; [constructor|].
  destruct (f x); auto. constructor; auto.
  intros Hin. apply filter_In in Hin. tauto.
Qed.

Lemma dict_keys_remove_NoDup k d :
  NoDup (dict_keys d) -> NoDup (dict_keys (dict_remove k d)).
Proof. intros. rewrite dict_keys_remove. now apply NoDup_filter. Qed.

Lemma dict_keys_set k v d :
  dict_keys (dict_set k v d)
  = if dict_contains k d then dict_keys d else dict_keys d ++ [k].
Proof.
  unfold dict_contains.
  induction d as [|[k' v'] d IH]; simpl; auto.
  destruct (eq_dec k k') as [->|Hne]; simpl; auto.
  rewrite IH. destruct (dict_get k d); auto.
Qed.

Lemma dict_keys_set_NoDup k v d :
  NoDup (dict_keys d) -> NoDup (dict_keys (dict_set k v d)).
Proof.
  intros Hnd. rewrite dict_keys_set. unfold dict_contains.
  destruct (dict_get k d) eqn:E; auto.
  apply dict_get_None_keys in E.
  apply NoDup_app; auto.
  - constructor; [simpl; tauto|constructor].
  - intros x Hx [<-|[]]. contradiction.
Qed.

End DictFacts.

(** ** Running the primitives *)

Lemma events_of_app {A} (m : M A) (w : World) (evs : list event) :
  trace (snd (m w)) = trace w ++ evs -> events_of m w = evs.
Proof.
  unfold events_of. intros ->.
  rewrite skipn_app, skipn_all, Nat.sub_diag. reflexivity.
Qed.

Lemma log_trace e w : trace (log e w) = trace w ++ [e].
Proof. reflexivity. Qed.

Lemma evict_trace s w : trace (evict s w) = trace w.
Proof. unfold evict. destruct (dict_get s (name_by_sock w)); reflexivity. Qed.

Lemma evict_all_trace dead w : trace (evict_all dead w) = trace w.
Proof.
  revert w. induction dead as [|s dead IH]; intros w; simpl; auto.
  unfold evict_all in *. simpl. rewrite IH. apply evict_trace.
Qed.

Lemma try_sendall_run s p w :
  try_sendall s p w
  = (Ok (match net (trace w) s p with None => true | Some _ => false end),
     log (Sendall s p (net (trace w) s p)) w).
Proof.
  unfold try_sendall, try_except_OSError, bind, sendall, ret.
  destruct (net (trace w) s p); reflexivity.
Qed.

Lemma _unsafe_remove_run s w : _unsafe_remove s w = (Ok tt, evict s w).
Proof.
  unfold _unsafe_remove, evict, bind, name_by_sock_pop, sockets_by_name_pop,
    dict_pop, ret.
  destruct (dict_get s (name_by_sock w)); reflexivity.
Qed.

Lemma remove_dead_run dead w : remove_dead dead w = (Ok tt, evict_all dead w).
Proof.
  revert w. induction dead as [|s dead IH]; intros w; simpl; auto.
  unfold bind. rewrite _unsafe_remove_run. apply IH.
Qed.

Lemma broadcast_sends_run payload socks dead w :
  broadcast_sends payload socks dead w
  = (Ok (dead ++ failed_sends (send_events (trace w) payload socks)),
     mkWorld (name_by_sock w) (sockets_by_name w)
             (trace w ++ send_events (trace w) payload socks)).
Proof.
  revert dead w. induction socks as [|s socks IH]; intros dead w; simpl.
  - unfold ret. rewrite !app_nil_r. destruct w; reflexivity.
  - unfold bind. rewrite try_sendall_run, IH. simpl.
    rewrite <- app_assoc. simpl.
    destruct (net (trace w) s payload); simpl; [rewrite <- app_assoc|]; reflexivity.
Qed.

Lemma broadcast_run message w :
  broadcast message w
  = (Ok tt,
     log Release
       (evict_all (failed_sends (broadcast_events message w))
          (mkWorld (name_by_sock w) (sockets_by_name w)
             (trace w ++ Acquire :: broadcast_events message w)))).
Proof.
  unfold broadcast, with_clients_lock, bind, gets. simpl.
  rewrite broadcast_sends_run. simpl. rewrite remove_dead_run.
  unfold broadcast_events. rewrite <- app_assoc. reflexivity.
Qed.

(** ** Reading traces: algebra *)

Lemma failed_sends_app e1 e2 :
  failed_sends (e1 ++ e2) = failed_sends e1 ++ failed_sends e2.
Proof.
  induction e1 as [|[| |s p [x|]| |] e1 IH]; simpl; auto. now rewrite IH.
Qed.

Lemma delivered_app e1 e2 : delivered (e1 ++ e2) = delivered e1 ++ delivered e2.
Proof.
  induction e1 as [|[| |s p [x|]| |] e1 IH]; simpl; auto. now rewrite IH.
Qed.

Lemma attempted_app e1 e2 : attempted (e1 ++ e2) = attempted e1 ++ attempted e2.
Proof.
  induction e1 as [|[| |s p r| |] e1 IH]; simpl; auto. now rewrite IH.
Qed.

Lemma closed_app e1 e2 : closed (e1 ++ e2) = closed e1 ++ closed e2.
Proof.
  induction e1 as [|[| |s p r|s|] e1 IH]; simpl; auto. now rewrite IH.
Qed.

Lemma printed_app e1 e2 : printed (e1 ++ e2) = printed e1 ++ printed e2.
Proof.
  induction e1 as [|[| |s p r|s|l] e1 IH]; simpl; auto. now rewrite IH.
Qed.

Lemma acquisitions_app e1 e2 :
  acquisitions (e1 ++ e2) = (acquisitions e1 + acquisitions e2)%nat.
Proof.
  induction e1 as [|[| |s p r|s|l] e1 IH]; simpl; auto.
Qed.

(** ** The sends of a broadcast *)

Lemma send_events_attempted hist payload socks :
  attempted (send_events hist payload socks) = map (fun s => (s, payload)) socks.
Proof.
  revert hist. induction socks as [|s socks IH]; intros hist; simpl; auto.
  now rewrite IH.
Qed.

Lemma send_events_under_lock hist payload socks :
  sends_under_lock true (send_events hist payload socks)
  = map (fun s => (s, payload)) socks.
Proof.
  revert hist. induction socks as [|s socks IH]; intros hist; simpl; auto.
  now rewrite IH.
Qed.

Lemma send_events_outside_lock hist payload socks tail :
  sends_outside_lock true (send_events hist payload socks ++ tail)
  = sends_outside_lock true tail.
Proof.
  revert hist. induction socks as [|s socks IH]; intros hist; simpl; auto.
Qed.

Lemma send_events_under_lock_app hist payload socks tail :
  sends_under_lock true (send_events hist payload socks ++ tail)
  = map (fun s => (s, payload)) socks ++ sends_under_lock true tail.
Proof.
  revert hist. induction socks as [|s socks IH]; intros hist; simpl; auto.
  now rewrite IH.
Qed.

Lemma send_events_closed hist payload socks :
  closed (send_events hist payload socks) = [].
Proof.
  revert hist. induction socks as [|s socks IH]; intros hist; simpl; auto.
Qed.

Lemma send_events_printed hist payload socks :
  printed (send_events hist payload socks) = [].
Proof.
  revert hist. induction socks as [|s socks IH]; intros hist; simpl; auto.
Qed.

Lemma send_events_acquisitions hist payload socks :
  acquisitions (send_events hist payload socks) = O.
Proof.
  revert hist. induction socks as [|s socks IH]; intros hist; simpl; auto.
Qed.

Lemma send_events_failed_incl hist payload socks :
  incl (failed_sends (send_events hist payload socks)) socks.
Proof.
  revert hist. induction socks as [|s socks IH]; intros hist; simpl.
  - apply incl_refl.
  - destruct (net hist s payload).
    + apply incl_cons; [now left|]. apply incl_tl, IH.
    + apply incl_tl, IH.
Qed.

Lemma mem_sock_In s l : mem_sock s l = true <-> In s l.
Proof.
  unfold mem_sock. rewrite existsb_exists. split.
  - intros [x [Hin Heq]]. apply N.eqb_eq in Heq. now subst.
  - intros Hin. exists s. split; auto. apply N.eqb_refl.
Qed.

Lemma mem_sock_false s l : mem_sock s l = false <-> ~ In s l.
Proof.
  rewrite <- mem_sock_In. destruct (mem_sock s l); split; congruence.
Qed.

(** With the sockets listed once, the sends that did not raise are those to
    the sockets that are not among the failed ones, in the same order. *)
Lemma send_events_delivered hist payload socks :
  NoDup socks ->
  delivered (send_events hist payload socks)
  = map (fun s => (s, payload))
      (filter (fun s => negb (mem_sock s (failed_sends (send_events hist payload socks))))
              socks).
Proof.
  intros Hnd. revert hist.
  induction Hnd as [|s socks Hni Hnd IH]; intros hist; simpl; auto.
  pose proof (send_events_failed_incl
                (hist ++ [Sendall s payload (net hist s payload)]) payload socks)
    as Hincl.
  destruct (net hist s payload) as [e|]; simpl.
  - rewrite N.eqb_refl. simpl. rewrite IH. f_equal.
    apply filter_ext_in. intros x Hx.
    destruct (N.eqb_spec x s) as [->|Hne]; [contradiction|reflexivity].
  - replace (mem_sock s _) with false.
    + simpl. now rewrite IH.
    + symmetry. apply mem_sock_false. intros Hin. apply Hni, Hincl, Hin.
Qed.

(** ** Evictions *)

Lemma filter_filter {A} (f g : A -> bool) (l : list A) :
  filter f (filter g l) = filter (fun x => g x && f x) l.
Proof.
  induction l as [|x l IH]; simpl; auto.
  destruct (g x); simpl; [destruct (f x)|]; now rewrite IH.
Qed.

Lemma filter_all {A} (f : A -> bool) (l : list A) :
  (forall x, In x l -> f x = true) -> filter f l = l.
Proof.
  induction l as [|x l IH]; simpl; auto.
  intros Hall. rewrite (Hall x) by auto. f_equal. auto.
Qed.

Lemma evict_name_by_sock s w :
  name_by_sock (evict s w) = dict_remove s (name_by_sock w).
Proof. unfold evict. destruct (dict_get s (name_by_sock w)); reflexivity. Qed.

Lemma evict_all_cons s dead w : evict_all (s :: dead) w = evict_all dead (evict s w).
Proof. reflexivity. Qed.

Lemma evict_all_name_by_sock dead w :
  name_by_sock (evict_all dead w)
  = filter (fun kv => negb (mem_sock (fst kv) dead)) (name_by_sock w).
Proof.
  revert w. induction dead as [|s dead IH]; intros w.
  - simpl. symmetry. now apply filter_all.
  - rewrite evict_all_cons, IH, evict_name_by_sock. unfold dict_remove.
    rewrite filter_filter. apply filter_ext. intros [k v]. simpl.
    rewrite (N.eqb_sym k s).
    destruct (eq_dec s k) as [->|Hne].
    + now rewrite N.eqb_refl.
    + destruct (N.eqb_spec s k); [contradiction|reflexivity].
Qed.

Lemma evict_get_self s w : dict_get s (name_by_sock (evict s w)) = None.
Proof. rewrite evict_name_by_sock. apply dict_get_remove_same. Qed.

Lemma evict_get_None s x w :
  dict_get x (name_by_sock w) = None ->
  dict_get x (name_by_sock (evict s w)) = None.
Proof.
  intros Hx. rewrite evict_name_by_sock.
  destruct (N.eq_dec x s) as [->|Hne].
  - apply dict_get_remove_same.
  - now rewrite dict_get_remove_other.
Qed.

Lemma evict_all_get_None dead x w :
  dict_get x (name_by_sock w) = None ->
  dict_get x (name_by_sock (evict_all dead w)) = None.
Proof.
  revert w. induction dead as [|s dead IH]; intros w Hx; auto.
  rewrite evict_all_cons. apply IH. now apply evict_get_None.
Qed.

Lemma evict_all_get_dead dead d w :
  In d dead -> dict_get d (name_by_sock (evict_all dead w)) = None.
Proof.
  revert w. induction dead as [|s dead IH]; intros w Hin; [destruct Hin|].
  rewrite evict_all_cons. destruct Hin as [->|Hin].
  - apply evict_all_get_None, evict_get_self.
  - now apply IH.
Qed.

Lemma evict_backed s w : backed w -> backed (evict s w).
Proof.
  intros [Hnd Hb]. split.
  - rewrite evict_name_by_sock. now apply dict_keys_remove_NoDup.
  - intros n x Hget. rewrite evict_name_by_sock.
    unfold evict in Hget.
    destruct (dict_get s (name_by_sock w)) as [ns|] eqn:Es; simpl in Hget.
    + destruct (str_eq_dec n ns) as [->|Hne].
      * now rewrite dict_get_remove_same in Hget.
      * rewrite dict_get_remove_other in Hget by assumption.
        apply Hb in Hget.
        rewrite dict_get_remove_other; auto. intros ->. congruence.
    + apply Hb in Hget.
      rewrite dict_get_remove_other; auto. intros ->. congruence.
Qed.

Lemma evict_all_backed dead w : backed w -> backed (evict_all dead w).
Proof.
  revert w. induction dead as [|s dead IH]; intros w Hb; auto.
  rewrite evict_all_cons. apply IH. now apply evict_backed.
Qed.

(** In a backed registry, a connection without a nickname is the value of
    no nickname. *)
Lemma backed_absent w d :
  backed w -> dict_get d (name_by_sock w) = None ->
  forall n, dict_get n (sockets_by_name w) <> Some d.
Proof.
  intros [_ Hb] Hd n Hn. apply Hb in Hn. congruence.
Qed.

Lemma evict_consistent s w : consistent w -> consistent (evict s w).
Proof.
  intros (Hn1 & Hn2 & Hag & Hne).
  assert (Hnbs : name_by_sock (evict s w) = dict_remove s (name_by_sock w))
    by apply evict_name_by_sock.
  unfold consistent. rewrite Hnbs.
  unfold evict. destruct (dict_get s (name_by_sock w)) as [ns|] eqn:Es; simpl.
  - assert (Hns : dict_get ns (sockets_by_name w) = Some s) by now apply Hag.
    repeat split.
    + now apply dict_keys_remove_NoDup.
    + now apply dict_keys_remove_NoDup.
    + intros Hget. destruct (N.eq_dec s0 s) as [->|Hs].
      * now rewrite dict_get_remove_same in Hget.
      * rewrite dict_get_remove_other in Hget by assumption.
        destruct (str_eq_dec n ns) as [->|Hn].
        -- apply Hag in Hget. congruence.
        -- rewrite dict_get_remove_other by assumption. now apply Hag.
    + intros Hget. destruct (str_eq_dec n ns) as [->|Hn].
      * now rewrite dict_get_remove_same in Hget.
      * rewrite dict_get_remove_other in Hget by assumption.
        destruct (N.eq_dec s0 s) as [->|Hs].
        -- apply Hag in Hget. congruence.
        -- rewrite dict_get_remove_other by assumption. now apply Hag.
    + intros s0 Hget. destruct (N.eq_dec s0 s) as [->|Hs].
      * now rewrite dict_get_remove_same in Hget.
      * rewrite dict_get_remove_other in Hget by assumption. now apply (Hne s0).
  - assert (Hid : dict_remove s (name_by_sock w) = name_by_sock w)
      by now apply dict_remove_absent, dict_get_None_keys.
    rewrite Hid. repeat split; auto; now apply Hag.
Qed.

Lemma evict_all_consistent dead w : consistent w -> consistent (evict_all dead w).
Proof.
  revert w. induction dead as [|s dead IH]; intros w Hc; auto.
  rewrite evict_all_cons. apply IH. now apply evict_consistent.
Qed.

(** In a consistent registry an eviction removes, from the nickname map,
    the entries of the evicted connection and nothing else. *)
Lemma evict_sockets_by_name s w :
  consistent w ->
  sockets_by_name (evict s w)
  = filter (fun kv => negb (snd kv =? s)) (sockets_by_name w).
Proof.
  intros (Hn1 & Hn2 & Hag & Hne).
  unfold evict. destruct (dict_get s (name_by_sock w)) as [ns|] eqn:Es; simpl.
  - unfold dict_remove. apply filter_ext_in. intros [n x] Hin. simpl.
    apply dict_In_get in Hin; auto.
    destruct (eq_dec ns n) as [Heq|Hn].
    + subst n. apply Hag in Es.
      pose proof (eq_trans (eq_sym Es) Hin) as Hsx. injection Hsx as <-.
      now rewrite N.eqb_refl.
    + destruct (N.eqb_spec x s) as [->|Hx]; auto.
      apply Hag in Hin. congruence.
  - symmetry. apply filter_all. intros [n x] Hin. simpl.
    apply dict_In_get in Hin; auto.
    destruct (N.eqb_spec x s) as [->|Hx]; auto.
    apply Hag in Hin. congruence.
Qed.

Lemma evict_all_sockets_by_name dead w :
  consistent w ->
  sockets_by_name (evict_all dead w)
  = filter (fun kv => negb (mem_sock (snd kv) dead)) (sockets_by_name w).
Proof.
  revert w. induction dead as [|s dead IH]; intros w Hc.
  - simpl. symmetry. now apply filter_all.
  - rewrite evict_all_cons, IH by now apply evict_consistent.
    rewrite evict_sockets_by_name by assumption.
    rewrite filter_filter. apply filter_ext. intros [n x]. simpl.
    now rewrite negb_orb.
Qed.

(** ** The invariant and its checker *)

Lemma str_eqb_eq a b : str_eqb a b = true <-> a = b.
Proof. unfold str_eqb. destruct (str_eq_dec a b); split; congruence. Qed.

Lemma nodupb_NoDup {A} (eqb : A -> A -> bool) (l : list A) :
  (forall a b, eqb a b = true <-> a = b) -> nodupb eqb l = true -> NoDup l.
Proof.
  intros Heqb. induction l as [|x l IH]; simpl; [constructor|].
  intros Hb. apply andb_true_iff in Hb as [Hx Hl].
  constructor; auto. intros Hin.
  apply negb_true_iff in Hx.
  assert (existsb (eqb x) l = true); [|congruence].
  apply existsb_exists. exists x. split; auto. now apply Heqb.
Qed.

Lemma consistentb_sound w : consistentb w = true -> consistent w.
Proof.
  unfold consistentb. intros Hb.
  apply andb_true_iff in Hb as [Hb H4].
  apply andb_true_iff in Hb as [Hb H3].
  apply andb_true_iff in Hb as [H1 H2].
  apply nodupb_NoDup in H1; [|apply N.eqb_eq].
  apply nodupb_NoDup in H2; [|apply str_eqb_eq].
  rewrite forallb_forall in H3, H4.
  repeat split; auto.
  - intros Hget. apply dict_get_In in Hget. apply H3 in Hget. simpl in Hget.
    destruct (dict_get n (sockets_by_name w)); [|discriminate].
    apply andb_true_iff in Hget as [Hs _]. apply N.eqb_eq in Hs. now subst.
  - intros Hget. apply dict_get_In in Hget. apply H4 in Hget. simpl in Hget.
    destruct (dict_get s (name_by_sock w)); [|discriminate].
    apply str_eqb_eq in Hget. now subst.
  - intros s Hget. apply dict_get_In in Hget. apply H3 in Hget. simpl in Hget.
    destruct (dict_get _ (sockets_by_name w)); [|discriminate].
    apply andb_true_iff in Hget as [_ Hn]. unfold str_eqb in Hn.
    destruct (str_eq_dec [] []); [discriminate|congruence].
Qed.

Lemma consistent_backed w : consistent w -> backed w.
Proof.
  intros (Hn1 & Hn2 & Hag & Hne). split; auto. intros n s. apply Hag.
Qed.

(** ** What a broadcast does *)

Lemma broadcast_world message w :
  snd (broadcast message w)
  = log Release
      (evict_all (failed_sends (broadcast_events message w))
         (mkWorld (name_by_sock w) (sockets_by_name w)
            (trace w ++ Acquire :: broadcast_events message w))).
Proof. now rewrite broadcast_run. Qed.

Lemma broadcast_trace message w :
  trace (snd (broadcast message w))
  = trace w ++ Acquire :: broadcast_events message w ++ [Release].
Proof.
  rewrite broadcast_world, log_trace, evict_all_trace.
  simpl. rewrite <- app_assoc. reflexivity.
Qed.

Lemma broadcast_events_of message w :
  events_of (broadcast message) w
  = Acquire :: broadcast_events message w ++ [Release].
Proof. apply events_of_app, broadcast_trace. Qed.

Lemma broadcast_failed message w :
  failed_sends (events_of (broadcast message) w)
  = failed_sends (broadcast_events message w).
Proof.
  rewrite broadcast_events_of. simpl. rewrite failed_sends_app. simpl.
  apply app_nil_r.
Qed.

Lemma closed_broadcast message w : closed (events_of (broadcast message) w) = [].
Proof.
  rewrite broadcast_events_of. simpl. rewrite closed_app. simpl.
  rewrite app_nil_r. apply send_events_closed.
Qed.

Lemma attempted_broadcast message w :
  attempted (events_of (broadcast message) w)
  = map (fun s => (s, message ++ NL)) (dict_keys (name_by_sock w)).
Proof.
  rewrite broadcast_events_of. simpl. rewrite attempted_app. simpl.
  rewrite app_nil_r. apply send_events_attempted.
Qed.

Lemma length_filter_neq (l : list sock) (d : sock) :
  NoDup l -> In d l ->
  S (List.length (filter (fun s => negb (s =? d)) l)) = List.length l.
Proof.
  induction 1 as [|x l Hni Hnd IH]; intros Hin; [destruct Hin|].
  simpl. destruct (N.eqb_spec x d) as [->|Hne]; simpl.
  - f_equal. f_equal. apply filter_all. intros y Hy.
    destruct (N.eqb_spec y d) as [->|]; [contradiction|reflexivity].
  - f_equal. apply IH. destruct Hin; [contradiction|assumption].
Qed.

(** C2: in a broadcast over the N registered connections in which exactly
    one [sendall] raises, to the connection [d], the payload is delivered to
    each of the other N-1 connections (in the order of the dict), and
    afterwards [d] is a key of [name_by_sock] no more and the value of no
    entry of [sockets_by_name]. *)
Theorem broadcast_one_failure (message : str) (w : World) (d : sock) :
  backed w ->
  failed_sends (events_of (broadcast message) w) = [d] ->
  let w' := snd (broadcast message w) in
  let others := filter (fun s => negb (s =? d)) (dict_keys (name_by_sock w)) in
  fst (broadcast message w) = Ok tt /\
  delivered (events_of (broadcast message) w)
    = map (fun s => (s, message ++ NL)) others /\
  S (List.length others) = List.length (name_by_sock w) /\
  dict_get d (name_by_sock w') = None /\
  (forall n, dict_get n (sockets_by_name w') <> Some d).
Proof.
  intros Hb Hfail. rewrite broadcast_failed in Hfail. cbv zeta.
  assert (Hnd : NoDup (dict_keys (name_by_sock w))) by apply Hb.
  assert (Hd : dict_get d
                 (name_by_sock (evict_all [d]
                    (mkWorld (name_by_sock w) (sockets_by_name w)
                       (trace w ++ Acquire :: broadcast_events message w))))
               = None)
    by (apply evict_all_get_dead; now left).
  assert (Hin : In d (dict_keys (name_by_sock w))).
  { apply (send_events_failed_incl (trace w ++ [Acquire]) (message ++ NL)).
    fold (broadcast_events message w). rewrite Hfail. now left. }
  repeat split.
  - now rewrite broadcast_run.
  - rewrite broadcast_events_of. simpl. rewrite delivered_app. simpl.
    rewrite app_nil_r. unfold broadcast_events in *.
    rewrite send_events_delivered by assumption. rewrite Hfail.
    f_equal. apply filter_ext. intros s. simpl. now rewrite orb_false_r.
  - rewrite <- (length_map fst (name_by_sock w)).
    now apply length_filter_neq.
  - rewrite broadcast_world, Hfail. exact Hd.
  - rewrite broadcast_world, Hfail.
    refine (backed_absent _ d (evict_all_backed [d] _ _) Hd). exact Hb.
Qed.

Lemma evict_get_Some x y m w :
  dict_get x (name_by_sock (evict y w)) = Some m ->
  dict_get x (name_by_sock w) = Some m.
Proof.
  rewrite evict_name_by_sock. destruct (N.eq_dec x y) as [->|Hne].
  - now rewrite dict_get_remove_same.
  - now rewrite dict_get_remove_other.
Qed.

(** An eviction touches the nickname map at the nickname of the evicted
    connection only. *)
Lemma evict_sockets_other x n w :
  dict_get x (name_by_sock w) <> Some n ->
  dict_get n (sockets_by_name (evict x w)) = dict_get n (sockets_by_name w).
Proof.
  intros Hx. unfold evict.
  destruct (dict_get x (name_by_sock w)) as [nx|]; simpl; auto.
  apply dict_get_remove_other. congruence.
Qed.

Lemma evict_all_sockets_other dead n w :
  (forall x, In x dead -> dict_get x (name_by_sock w) <> Some n) ->
  dict_get n (sockets_by_name (evict_all dead w)) = dict_get n (sockets_by_name w).
Proof.
  revert w. induction dead as [|y dead IH]; intros w Hall; auto.
  rewrite evict_all_cons, IH.
  - apply evict_sockets_other, Hall. now left.
  - intros x Hx Hget. apply evict_get_Some in Hget.
    apply (Hall x); auto. now right.
Qed.

(** ** Unregistering *)

Lemma evict_unregistered s w :
  dict_get s (name_by_sock w) = None -> evict s w = w.
Proof.
  intros Hs. unfold evict. rewrite Hs.
  rewrite dict_remove_absent by now apply dict_get_None_keys.
  now destruct w.
Qed.

(** [_remove_client], unfolded: the pair is removed under the lock; the
    departure notice is broadcast when the connection had a non-empty
    nickname in the registry; the socket is closed. *)
Lemma _remove_client_run s w :
  _remove_client s w
  = let w1 := log Release (evict s (log Acquire w)) in
    match dict_get s (name_by_sock w) with
    | Some ((_ :: _) as n) =>
      (Ok tt, log (Close s) (snd (broadcast (n ++ LEFT) w1)))
    | _ => (Ok tt, log (Close s) w1)
    end.
Proof.
  unfold _remove_client, with_clients_lock, bind, gets, close, emit, ret.
  simpl. rewrite _unsafe_remove_run.
  destruct (dict_get s (name_by_sock w)) as [[|c n]|]; simpl; auto.
  now rewrite broadcast_run.
Qed.

(** The events of [_remove_client]. *)
Lemma _remove_client_events s w :
  events_of (_remove_client s) w
  = Acquire :: Release ::
    match dict_get s (name_by_sock w) with
    | Some ((_ :: _) as n) =>
      events_of (broadcast (n ++ LEFT)) (log Release (evict s (log Acquire w)))
    | _ => []
    end ++ [Close s].
Proof.
  apply events_of_app. rewrite _remove_client_run. cbv zeta.
  destruct (dict_get s (name_by_sock w)) as [[|c n]|]; simpl snd;
    rewrite log_trace.
  - rewrite log_trace, evict_trace, log_trace, <- !app_assoc. reflexivity.
  - rewrite broadcast_trace, broadcast_events_of.
    rewrite log_trace, evict_trace, log_trace, <- !app_assoc. reflexivity.
  - rewrite log_trace, evict_trace, log_trace, <- !app_assoc. reflexivity.
Qed.

Lemma _remove_client_unregistered s w :
  dict_get s (name_by_sock w) = None ->
  _remove_client s w = (Ok tt, log (Close s) (log Release (log Acquire w))).
Proof.
  intros Hs. rewrite _remove_client_run, Hs. simpl.
  now rewrite evict_unregistered.
Qed.

Lemma broadcast_get_None message x w :
  dict_get x (name_by_sock w) = None ->
  dict_get x (name_by_sock (snd (broadcast message w))) = None.
Proof.
  intros Hx. rewrite broadcast_world. simpl.
  now apply evict_all_get_None.
Qed.

(** After [_remove_client] the connection has no entry. *)
Lemma _remove_client_get_self s w :
  dict_get s (name_by_sock (snd (_remove_client s w))) = None.
Proof.
  rewrite _remove_client_run. cbv zeta.
  assert (H1 : dict_get s (name_by_sock (log Release (evict s (log Acquire w)))) = None)
    by apply evict_get_self.
  destruct (dict_get s (name_by_sock w)) as [[|c n]|]; simpl snd; auto.
  change (name_by_sock (log (Close s) ?x)) with (name_by_sock x).
  now apply broadcast_get_None.
Qed.

(** C8: a second [_remove_client] of the same connection leaves both maps
    as the first one left them and only takes and releases the lock and
    closes the socket again: it sends nothing, so no departure notice; and
    a second [_unsafe_remove] changes nothing at all. *)
Theorem unregister_twice (s : sock) (w : World) :
  let w1 := snd (_remove_client s w) in
  fst (_remove_client s w1) = Ok tt /\
  registry (snd (_remove_client s w1)) = registry w1 /\
  events_of (_remove_client s) w1 = [Acquire; Release; Close s] /\
  _unsafe_remove s (snd (_unsafe_remove s w)) = (Ok tt, snd (_unsafe_remove s w)).
Proof.
  cbv zeta.
  pose proof (_remove_client_get_self s w) as Hs.
  rewrite (_remove_client_unregistered s _ Hs).
  repeat split.
  - apply events_of_app. rewrite (_remove_client_unregistered s _ Hs).
    simpl. rewrite <- !app_assoc. reflexivity.
  - rewrite !_unsafe_remove_run. simpl. f_equal.
    apply evict_unregistered, evict_get_self.
Qed.

(** X17: in a registry where every nickname entry has its reverse entry,
    a connection [d] whose [sendall] raised during a broadcast has
    afterwards no entry in either map; the broadcast closed no socket and
    sent nothing but its own payload; when the session of [d] later runs
    [_remove_client], that only takes and releases the lock and closes the
    socket (no departure notice).  The connection map after the broadcast
    is the one before it without the connections whose [sendall] raised; a
    nickname that none of them carried is looked up as before; and in a
    consistent registry the nickname map is the one before the broadcast
    without the entries of those connections. *)
Theorem eviction_frame (message : str) (w : World) (d : sock) :
  backed w ->
  In d (failed_sends (events_of (broadcast message) w)) ->
  let w' := snd (broadcast message w) in
  let dead := failed_sends (events_of (broadcast message) w) in
  dict_get d (name_by_sock w') = None /\
  (forall n, dict_get n (sockets_by_name w') <> Some d) /\
  closed (events_of (broadcast message) w) = [] /\
  attempted (events_of (broadcast message) w)
    = map (fun s => (s, message ++ NL)) (dict_keys (name_by_sock w)) /\
  events_of (_remove_client d) w' = [Acquire; Release; Close d] /\
  name_by_sock w'
    = filter (fun kv => negb (mem_sock (fst kv) dead)) (name_by_sock w) /\
  (forall n, (forall s, In s dead -> dict_get s (name_by_sock w) <> Some n) ->
             dict_get n (sockets_by_name w') = dict_get n (sockets_by_name w)) /\
  (consistent w ->
   sockets_by_name w'
   = filter (fun kv => negb (mem_sock (snd kv) dead)) (sockets_by_name w)).
Proof.
  intros Hb Hin. cbv zeta. rewrite broadcast_failed in *.
  set (w0 := mkWorld (name_by_sock w) (sockets_by_name w)
               (trace w ++ Acquire :: broadcast_events message w)).
  assert (Hw' : snd (broadcast message w)
                = log Release (evict_all (failed_sends (broadcast_events message w)) w0))
    by apply broadcast_world.
  assert (Hd : dict_get d (name_by_sock (snd (broadcast message w))) = None).
  { rewrite Hw'. now apply (evict_all_get_dead _ d w0). }
  repeat apply conj.
  - exact Hd.
  - rewrite Hw'.
    refine (backed_absent _ d (evict_all_backed _ w0 Hb) _).
    now apply (evict_all_get_dead _ d w0).
  - apply closed_broadcast.
  - apply attempted_broadcast.
  - apply events_of_app. rewrite (_remove_client_unregistered d _ Hd).
    simpl. rewrite <- !app_assoc. reflexivity.
  - rewrite Hw'. apply (evict_all_name_by_sock _ w0).
  - intros n Hn. rewrite Hw'. now apply (evict_all_sockets_other _ n w0).
  - intros Hc. rewrite Hw'. now apply (evict_all_sockets_by_name _ w0).
Qed.

(** ** Whispers *)

Lemma send_whisper_run sender target text ss w :
  send_whisper sender target text ss w
  = (Ok tt,
     mkWorld (name_by_sock w) (sockets_by_name w)
       (trace w ++ send_whisper_events sender target text ss w)).
Proof.
  unfold send_whisper, send_whisper_events, bind, gets, ret.
  destruct (dict_get target (sockets_by_name w)) as [ts|].
  - rewrite try_sendall_run.
    destruct (net (trace w) ts (whisper_to_target sender text));
      rewrite try_sendall_run; unfold log; simpl; rewrite <- app_assoc;
      reflexivity.
  - rewrite try_sendall_run. reflexivity.
Qed.

Lemma send_whisper_events_of sender target text ss w :
  events_of (send_whisper sender target text ss) w
  = send_whisper_events sender target text ss w.
Proof. apply events_of_app. now rewrite send_whisper_run. Qed.

(** Amended C1: a broadcast takes the lock, makes every one of its sends
    (one per registered connection, in the order of the dict) and its
    evictions while holding it, and releases it at the end; nothing is sent
    outside the lock.  The insertion of a pair and [_remove_client] begin by
    taking and releasing the lock around their accesses to the maps.
    [send_whisper] reads [sockets_by_name] and sends without ever taking the
    lock. *)
Theorem lock_discipline (message name sender target text : str)
    (client_sock : sock) (w : World) :
  events_of (broadcast message) w
    = Acquire :: broadcast_events message w ++ [Release] /\
  sends_under_lock false (events_of (broadcast message) w)
    = map (fun s => (s, message ++ NL)) (dict_keys (name_by_sock w)) /\
  sends_outside_lock false (events_of (broadcast message) w) = [] /\
  acquisitions (events_of (broadcast message) w) = 1%nat /\
  events_of (register client_sock name) w = [Acquire; Release] /\
  firstn 2 (events_of (_remove_client client_sock) w) = [Acquire; Release] /\
  acquisitions (events_of (send_whisper sender target text client_sock) w) = O /\
  sends_under_lock false (events_of (send_whisper sender target text client_sock) w)
    = [].
Proof.
  rewrite broadcast_events_of. repeat apply conj.
  - reflexivity.
  - simpl. unfold broadcast_events.
    rewrite send_events_under_lock_app. simpl. apply app_nil_r.
  - simpl. unfold broadcast_events. now rewrite send_events_outside_lock.
  - simpl. rewrite acquisitions_app. unfold broadcast_events.
    now rewrite send_events_acquisitions.
  - apply events_of_app. simpl. now rewrite <- app_assoc.
  - now rewrite _remove_client_events.
  - rewrite send_whisper_events_of. unfold send_whisper_events.
    now destruct (dict_get target (sockets_by_name w)).
  - rewrite send_whisper_events_of. unfold send_whisper_events.
    now destruct (dict_get target (sockets_by_name w)).
Qed.

(** C4, amended: when the target is registered and the [sendall] to it
    does not raise, [send_whisper] makes exactly two sends, first the line
    [(귓속말) sender> text] to the target and then the echo
    [(귓속말) sender -> target> text] to the sender, and returns normally
    whatever the echo's [sendall] did; it adds no other event (nothing is
    logged, no further notice is sent) and leaves the maps as they were. *)
Theorem whisper_delivery (sender target text : str)
    (sender_sock target_sock : sock) (w : World) :
  dict_get target (sockets_by_name w) = Some target_sock ->
  net (trace w) target_sock (whisper_to_target sender text) = None ->
  let e1 := Sendall target_sock (whisper_to_target sender text) None in
  let echo := whisper_to_sender sender target text in
  send_whisper sender target text sender_sock w
  = (Ok tt,
     mkWorld (name_by_sock w) (sockets_by_name w)
       (trace w ++
        [e1; Sendall sender_sock echo (net (trace w ++ [e1]) sender_sock echo)])).
Proof.
  intros Ht Hok. cbv zeta. rewrite send_whisper_run.
  unfold send_whisper_events. rewrite Ht. cbv zeta. rewrite Hok. reflexivity.
Qed.

(** ** Routing one line *)

Lemma _parse_whisper_nonempty msg target text :
  _parse_whisper msg = (Some target, Some text) ->
  truthy (Some target) && truthy (Some text) = true.
Proof.
  unfold _parse_whisper.
  destruct (split 32 2 msg) as [|p0 [|p1 [|p2 ps]]]; try discriminate.
  destruct (strip p1) as [|c1 t1]; [discriminate|].
  destruct (strip p2) as [|c2 t2]; [discriminate|].
  intros [= <- <-]. reflexivity.
Qed.

Lemma _parse_whisper_malformed msg :
  (List.length (split 32 2 msg) < 3)%nat \/
  (exists p0 p1 p2, split 32 2 msg = [p0; p1; p2] /\
                    (strip p1 = [] \/ strip p2 = [])) ->
  _parse_whisper msg = (None, None).
Proof.
  unfold _parse_whisper. intros [Hlen|(p0 & p1 & p2 & -> & Hempty)].
  - destruct (split 32 2 msg) as [|q0 [|q1 [|q2 qs]]]; auto.
    simpl in Hlen. lia.
  - destruct Hempty as [-> | ->]; auto. now destruct (strip p1).
Qed.

Lemma route_usage name s msg w :
  _is_whisper_command msg = true ->
  _parse_whisper msg = (None, None) ->
  route name s msg w
  = (Ok tt, log (Sendall s USAGE (net (trace w) s USAGE)) w).
Proof.
  intros Hw Hp. unfold route. rewrite Hw, Hp. simpl.
  unfold bind. now rewrite try_sendall_run.
Qed.

Lemma route_not_found name s msg target text w :
  _is_whisper_command msg = true ->
  _parse_whisper msg = (Some target, Some text) ->
  dict_get target (sockets_by_name w) = None ->
  route name s msg w
  = (Ok tt,
     log (Sendall s (not_found_notice target)
            (net (trace w) s (not_found_notice target))) w).
Proof.
  intros Hw Hp Hget. unfold route. rewrite Hw, Hp.
  rewrite (_parse_whisper_nonempty _ _ _ Hp).
  rewrite send_whisper_run. unfold send_whisper_events. now rewrite Hget.
Qed.

(** A line that is neither blank nor the quit token is routed, and the loop
    reads on. *)
Lemma message_loop_route name s data rest w :
  strip data <> [] -> strip data <> QUIT ->
  message_loop name s (Data data :: rest) w
  = (route name s (strip data) ;; message_loop name s rest) w.
Proof.
  intros Hne Hq. simpl. destruct (strip data) as [|c m] eqn:E; [now elim Hne|].
  destruct (str_eq_dec (c :: m) QUIT); [contradiction|reflexivity].
Qed.

(** C5: a whisper command line with fewer than three space-separated
    parts, or whose target or body is empty after trimming, makes exactly
    one send, of the usage notice, to the sender; a well-formed whisper
    whose target is not a key of [sockets_by_name] makes exactly one send,
    of the not-found notice, to the sender.  In both cases nothing else
    happens: no other connection is sent anything and the maps are as they
    were. *)
Theorem failed_whisper_notice (name msg : str) (client_sock : sock) (w : World) :
  _is_whisper_command msg = true ->
  ((List.length (split 32 2 msg) < 3)%nat \/
   (exists p0 p1 p2, split 32 2 msg = [p0; p1; p2] /\
                     (strip p1 = [] \/ strip p2 = [])) ->
   route name client_sock msg w
   = (Ok tt, log (Sendall client_sock USAGE (net (trace w) client_sock USAGE)) w))
  /\
  (forall target text,
     _parse_whisper msg = (Some target, Some text) ->
     dict_get target (sockets_by_name w) = None ->
     route name client_sock msg w
     = (Ok tt,
        log (Sendall client_sock (not_found_notice target)
               (net (trace w) client_sock (not_found_notice target))) w)).
Proof.
  intros Hw. split.
  - intros Hbad. apply route_usage; auto. now apply _parse_whisper_malformed.
  - intros target text Hp Hget. now apply route_not_found with (text := text).
Qed.

(** ** Nickname negotiation *)

Lemma negotiate_blank s data rest w :
  strip data = [] ->
  _negotiate_unique_name s (Data data :: rest) w
  = let r := net (trace w) s BLANK_NAME in
    let w1 := log (Sendall s BLANK_NAME r) w in
    match r with
    | None => _negotiate_unique_name s rest w1
    | Some _ => (Ok (None, rest), w1)
    end.
Proof.
  intros Hd. simpl. rewrite Hd. unfold bind. rewrite try_sendall_run.
  now destruct (net (trace w) s BLANK_NAME).
Qed.

Lemma negotiate_taken s data rest w :
  strip data <> [] ->
  dict_contains (strip data) (sockets_by_name w) = true ->
  _negotiate_unique_name s (Data data :: rest) w
  = let r := net (trace w ++ [Acquire]) s NAME_IN_USE in
    let w1 := log Release (log (Sendall s NAME_IN_USE r) (log Acquire w)) in
    match r with
    | None => _negotiate_unique_name s rest w1
    | Some _ => (Ok (None, rest), w1)
    end.
Proof.
  intros Hne Ht. simpl. destruct (strip data) as [|c n] eqn:E; [now elim Hne|].
  unfold bind at 1. unfold with_clients_lock, bind, gets. simpl.
  rewrite Ht. rewrite try_sendall_run. simpl.
  now destruct (net (trace w ++ [Acquire]) s NAME_IN_USE).
Qed.

Lemma negotiate_free s data rest w :
  strip data <> [] ->
  dict_contains (strip data) (sockets_by_name w) = false ->
  _negotiate_unique_name s (Data data :: rest) w
  = (Ok (Some (strip data), rest), log Release (log Acquire w)).
Proof.
  intros Hne Ht. simpl. destruct (strip data) as [|c n] eqn:E; [now elim Hne|].
  unfold bind at 1. unfold with_clients_lock, bind, gets. simpl.
  now rewrite Ht.
Qed.

Lemma reprompts_one s p r :
  In p [PROMPT; BLANK_NAME; NAME_IN_USE] -> reprompts s [Sendall s p r].
Proof.
  intros Hp. split; auto. simpl. intros s' p' [[= <- <-]|[]]. auto.
Qed.

Lemma reprompts_app s e1 e2 :
  reprompts s e1 -> reprompts s e2 -> reprompts s (e1 ++ e2).
Proof.
  intros [H1 C1] [H2 C2]. split.
  - intros s' p. rewrite attempted_app, in_app_iff. intros [Hi|Hi]; auto.
  - now rewrite closed_app, C1, C2.
Qed.

Lemma negotiate_rejected s lines rest w :
  Forall (rejected (sockets_by_name w)) lines ->
  exists rest' evs,
    _negotiate_unique_name s (map Data lines ++ EOF :: rest) w
    = (Ok (None, rest'),
       mkWorld (name_by_sock w) (sockets_by_name w) (trace w ++ evs))
    /\ reprompts s evs.
Proof.
  intros Hall. revert w Hall.
  induction lines as [|data lines IH]; intros w Hall.
  - exists rest, []. simpl. unfold ret. rewrite app_nil_r. split.
    + now destruct w.
    + split; [intros s' p []|reflexivity].
  - inversion Hall as [|? ? Hrej Hall']; subst.
    change (map Data (data :: lines) ++ EOF :: rest)
      with (Data data :: (map Data lines ++ EOF :: rest)).
    destruct (str_eq_dec (strip data) []) as [Hblank|Hname].
    + rewrite negotiate_blank by assumption. cbv zeta.
      destruct (net (trace w) s BLANK_NAME) as [e|].
      * eexists _, [_]. split; [reflexivity|].
        apply reprompts_one. simpl. auto.
      * destruct (IH (log (Sendall s BLANK_NAME None) w) Hall')
          as (rest' & evs & Hrun & Hre).
        exists rest', (Sendall s BLANK_NAME None :: evs). split.
        -- rewrite Hrun. simpl. now rewrite <- app_assoc.
        -- apply (reprompts_app s [_] evs); auto.
           apply reprompts_one. simpl. auto.
    + destruct Hrej as [Hblank|Htaken]; [contradiction|].
      rewrite negotiate_taken by assumption. cbv zeta.
      destruct (net (trace w ++ [Acquire]) s NAME_IN_USE) as [e|].
      * exists (map Data lines ++ EOF :: rest),
          [Acquire; Sendall s NAME_IN_USE (Some e); Release]. split.
        -- unfold log. simpl. now rewrite <- !app_assoc.
        -- split; [|reflexivity]. simpl. intros s' p [[= <- <-]|[]]. auto.
      * destruct (IH (log Release (log (Sendall s NAME_IN_USE None) (log Acquire w)))
                     Hall') as (rest' & evs & Hrun & Hre).
        exists rest', ([Acquire; Sendall s NAME_IN_USE None; Release] ++ evs).
        split.
        -- rewrite Hrun. simpl. now rewrite <- !app_assoc.
        -- apply reprompts_app; auto.
           split; [|reflexivity]. simpl. intros s' p [[= <- <-]|[]]. auto.
Qed.

(** C6: a line that is blank after trimming is answered by the blank-name
    re-prompt and the negotiation reads on (or gives up when that send
    raises); a nickname that is a key of [sockets_by_name] is answered, under
    the lock, by the in-use re-prompt and the negotiation reads on (or gives
    up); in both cases the maps are not touched.  When the client sends only
    such lines and then closes its end, [handle_client] ends (it is not left
    waiting), the maps are as they were, and the only sends made are the
    prompt and the re-prompts, to the client itself: nothing was registered
    and nothing broadcast. *)
Theorem negotiation_rejections (client_sock : sock) (data : str)
    (lines : list str) (rest : list recv_result) (w : World) :
  (strip data = [] ->
   _negotiate_unique_name client_sock (Data data :: rest) w
   = let r := net (trace w) client_sock BLANK_NAME in
     let w1 := log (Sendall client_sock BLANK_NAME r) w in
     match r with
     | None => _negotiate_unique_name client_sock rest w1
     | Some _ => (Ok (None, rest), w1)
     end) /\
  (strip data <> [] ->
   dict_contains (strip data) (sockets_by_name w) = true ->
   _negotiate_unique_name client_sock (Data data :: rest) w
   = let r := net (trace w ++ [Acquire]) client_sock NAME_IN_USE in
     let w1 := log Release
                 (log (Sendall client_sock NAME_IN_USE r) (log Acquire w)) in
     match r with
     | None => _negotiate_unique_name client_sock rest w1
     | Some _ => (Ok (None, rest), w1)
     end) /\
  (Forall (rejected (sockets_by_name w)) lines ->
   dict_get client_sock (name_by_sock w) = None ->
   exists r evs,
     handle_client client_sock (map Data lines ++ EOF :: rest) w
     = (r, mkWorld (name_by_sock w) (sockets_by_name w) (trace w ++ evs))
     /\ r <> Blocked
     /\ (forall s' p, In (s', p) (attempted evs) ->
                      s' = client_sock /\ In p [PROMPT; BLANK_NAME; NAME_IN_USE])).
Proof.
  split; [apply negotiate_blank|]. split; [apply negotiate_taken|].
  intros Hall Hfresh.
  unfold handle_client, try_finally_remove, handle_client_try, greet.
  unfold bind at 1. unfold bind at 1. unfold sendall.
  destruct (net (trace w) client_sock PROMPT) as [e|] eqn:Eprompt.
  - set (w1 := log (Sendall client_sock PROMPT (Some e)) w).
    assert (Hrm : _remove_client client_sock w1
                  = (Ok tt, log (Close client_sock) (log Release (log Acquire w1))))
      by now apply _remove_client_unregistered.
    exists (match e with ConnectionResetError => Ok tt | OSError => Raise OSError end),
      [Sendall client_sock PROMPT (Some e); Acquire; Release; Close client_sock].
    split; [|split].
    + destruct e; rewrite Hrm; unfold log, w1; simpl;
        now rewrite <- !app_assoc.
    + destruct e; discriminate.
    + simpl. intros s' p [[= <- <-]|[]]. auto.
  - set (w1 := log (Sendall client_sock PROMPT None) w).
    destruct (negotiate_rejected client_sock lines rest w1 Hall)
      as (rest' & evs & Hrun & Hre & Hcl).
    rewrite Hrun. simpl fst. simpl snd. unfold serve, close, emit.
    set (w2 := log (Close client_sock)
                 (mkWorld (name_by_sock w1) (sockets_by_name w1) (trace w1 ++ evs))).
    assert (Hrm : _remove_client client_sock w2
                  = (Ok tt, log (Close client_sock) (log Release (log Acquire w2))))
      by now apply _remove_client_unregistered.
    rewrite Hrm.
    exists (Ok tt),
      (Sendall client_sock PROMPT None :: evs
       ++ [Close client_sock; Acquire; Release; Close client_sock]).
    split; [|split].
    + unfold log, w2, w1. simpl. f_equal. f_equal.
      now rewrite <- !app_assoc.
    + discriminate.
    + simpl. intros s' p [[= <- <-]|Hin]; [auto|].
      rewrite attempted_app, in_app_iff in Hin. destruct Hin as [Hin|[]].
      now apply Hre.
Qed.

(** ** Teardown *)

Lemma evict_sockets_None x n w :
  dict_get n (sockets_by_name w) = None ->
  dict_get n (sockets_by_name (evict x w)) = None.
Proof.
  intros Hn. unfold evict.
  destruct (dict_get x (name_by_sock w)) as [nx|]; simpl; auto.
  destruct (str_eq_dec n nx) as [->|Hne].
  - apply dict_get_remove_same.
  - now rewrite dict_get_remove_other.
Qed.

Lemma evict_all_sockets_None dead n w :
  dict_get n (sockets_by_name w) = None ->
  dict_get n (sockets_by_name (evict_all dead w)) = None.
Proof.
  revert w. induction dead as [|x dead IH]; intros w Hn; auto.
  rewrite evict_all_cons. apply IH. now apply evict_sockets_None.
Qed.

(** C7, amended: a [recv] that returns no data, or a line that is the quit
    token after trimming, ends the message loop at once, without any event
    (the quit token is sent to nobody); the [finally] block then is
    [_remove_client]: afterwards the connection has no entry and its
    nickname, if it had one, is a key no more; the departure notice is sent,
    to every connection still registered, exactly when the connection still
    had a (non-empty) nickname in the registry at that moment, and nothing is
    sent when it had none; the socket is closed. *)
Theorem quit_or_eof_teardown (name : str) (client_sock : sock)
    (x : recv_result) (rest : list recv_result) (w : World) :
  (x = EOF \/ exists data, x = Data data /\ strip data = QUIT) ->
  let w' := snd (_remove_client client_sock w) in
  let evs := events_of (_remove_client client_sock) w in
  message_loop name client_sock (x :: rest) w = (Ok tt, w) /\
  try_finally_remove (message_loop name client_sock (x :: rest)) client_sock w
    = _remove_client client_sock w /\
  dict_get client_sock (name_by_sock w') = None /\
  (forall n, dict_get client_sock (name_by_sock w) = Some n ->
             dict_get n (sockets_by_name w') = None) /\
  (forall n, dict_get client_sock (name_by_sock w) = Some n -> n <> [] ->
             attempted evs
             = map (fun s => (s, (n ++ LEFT) ++ NL))
                   (dict_keys (dict_remove client_sock (name_by_sock w)))) /\
  (dict_get client_sock (name_by_sock w) = None -> attempted evs = []) /\
  closed evs = [client_sock].
Proof.
  intros Hx. cbv zeta.
  assert (Hloop : message_loop name client_sock (x :: rest) w = (Ok tt, w)).
  { destruct Hx as [->|(data & -> & Hq)]; [reflexivity|].
    simpl. rewrite Hq. reflexivity. }
  repeat apply conj.
  - exact Hloop.
  - unfold try_finally_remove. now rewrite Hloop.
  - apply _remove_client_get_self.
  - intros n Hn. rewrite _remove_client_run, Hn. cbv zeta.
    assert (H1 : dict_get n (sockets_by_name
                               (log Release (evict client_sock (log Acquire w))))
                 = None).
    { unfold evict. simpl. rewrite Hn. simpl. apply dict_get_remove_same. }
    destruct n as [|c n]; simpl snd; [exact H1|].
    change (sockets_by_name (log (Close client_sock) ?y)) with (sockets_by_name y).
    rewrite broadcast_world. simpl sockets_by_name.
    now apply evict_all_sockets_None.
  - intros n Hn Hne. rewrite _remove_client_events, Hn.
    destruct n as [|c n]; [congruence|].
    simpl. rewrite attempted_app, attempted_broadcast. simpl.
    rewrite app_nil_r. unfold evict. simpl. rewrite Hn. reflexivity.
  - intros Hn. rewrite _remove_client_events, Hn. reflexivity.
  - rewrite _remove_client_events.
    destruct (dict_get client_sock (name_by_sock w)) as [[|c n]|]; simpl; auto.
    now rewrite closed_app, closed_broadcast.
Qed.

(** ** Registering *)

(** Inserting a pair whose connection and nickname are both new keeps the
    registry consistent. *)
Lemma register_consistent s name w :
  consistent w -> name <> [] ->
  dict_get s (name_by_sock w) = None ->
  dict_get name (sockets_by_name w) = None ->
  consistent (snd (register s name w)).
Proof.
  intros (Hn1 & Hn2 & Hag & Hne) Hname Hs Hn.
  unfold register, with_clients_lock, bind, name_by_sock_set,
    sockets_by_name_set, consistent. simpl.
  repeat split.
  - now apply dict_keys_set_NoDup.
  - now apply dict_keys_set_NoDup.
  - intros Hget. destruct (N.eq_dec s0 s) as [->|Hs0].
    + rewrite dict_get_set_same in Hget. injection Hget as <-.
      apply dict_get_set_same.
    + rewrite dict_get_set_other in Hget by assumption.
      destruct (str_eq_dec n name) as [->|Hn0].
      * apply Hag in Hget.
        pose proof (eq_trans (eq_sym Hn) Hget) as Habs. discriminate.
      * rewrite dict_get_set_other by assumption. now apply Hag.
  - intros Hget. destruct (str_eq_dec n name) as [->|Hn0].
    + rewrite dict_get_set_same in Hget. injection Hget as <-.
      apply dict_get_set_same.
    + rewrite dict_get_set_other in Hget by assumption.
      destruct (N.eq_dec s0 s) as [->|Hs0].
      * apply Hag in Hget.
        pose proof (eq_trans (eq_sym Hs) Hget) as Habs. discriminate.
      * rewrite dict_get_set_other by assumption. now apply Hag.
  - intros s0 Hget. destruct (N.eq_dec s0 s) as [->|Hs0].
    + rewrite dict_get_set_same in Hget. congruence.
    + rewrite dict_get_set_other in Hget by assumption. now apply (Hne s0).
Qed.

(** A broadcast and [_remove_client] keep the registry consistent. *)
Lemma broadcast_consistent message w :
  consistent w -> consistent (snd (broadcast message w)).
Proof.
  intros Hc. rewrite broadcast_world.
  exact (evict_all_consistent _ (mkWorld _ _ _) Hc).
Qed.

Lemma _remove_client_consistent s w :
  consistent w -> consistent (snd (_remove_client s w)).
Proof.
  intros Hc. rewrite _remove_client_run. cbv zeta.
  assert (H1 : consistent (log Release (evict s (log Acquire w))))
    by exact (evict_consistent s (log Acquire w) Hc).
  destruct (dict_get s (name_by_sock w)) as [[|c n]|]; simpl snd; auto.
  exact (broadcast_consistent _ _ H1).
Qed.

(** ** Every state of the server is backed *)

Lemma register_backed s name w :
  backed w -> dict_get s (name_by_sock w) = None ->
  backed (snd (register s name w)).
Proof.
  intros [Hnd Hb] Hs.
  unfold register, with_clients_lock, bind, name_by_sock_set,
    sockets_by_name_set, backed. simpl. split.
  - now apply dict_keys_set_NoDup.
  - intros n x Hget. destruct (str_eq_dec n name) as [->|Hn].
    + rewrite dict_get_set_same in Hget. injection Hget as <-.
      apply dict_get_set_same.
    + rewrite dict_get_set_other in Hget by assumption.
      apply Hb in Hget. rewrite dict_get_set_other; auto.
      intros ->. pose proof (eq_trans (eq_sym Hs) Hget). discriminate.
Qed.

Lemma broadcast_backed message w : backed w -> backed (snd (broadcast message w)).
Proof.
  intros Hb. rewrite broadcast_world.
  exact (evict_all_backed _ (mkWorld _ _ _) Hb).
Qed.

Lemma _remove_client_backed s w : backed w -> backed (snd (_remove_client s w)).
Proof.
  intros Hb. rewrite _remove_client_run. cbv zeta.
  assert (H1 : backed (log Release (evict s (log Acquire w))))
    by exact (evict_backed s (log Acquire w) Hb).
  destruct (dict_get s (name_by_sock w)) as [[|c n]|]; simpl snd; auto.
  exact (broadcast_backed _ _ H1).
Qed.

Lemma reachable_backed w : reachable w -> backed w.
Proof.
  induction 1 as [|s name w Hr IH Hname Hs|message w Hr IH|s w Hr IH
                  |sender target text s w Hr IH|e w Hr IH].
  - split; [constructor|]. intros n s. discriminate.
  - now apply register_backed.
  - now apply broadcast_backed.
  - now apply _remove_client_backed.
  - rewrite send_whisper_run. exact IH.
  - exact IH.
Qed.

(** * Further properties of the server *)

(** ** Trimming and splitting *)

Lemma lstrip_In x s : In x (lstrip s) -> In x s.
Proof.
  induction s as [|c r IH]; simpl; auto.
  destruct (isspace c); auto.
Qed.

Lemma strip_In x s : In x (strip s) -> In x s.
Proof.
  unfold strip, rstrip. intros Hin.
  apply in_rev, lstrip_In, in_rev in Hin. now apply lstrip_In.
Qed.

Lemma lstrip_head s c r : lstrip s = c :: r -> isspace c = false.
Proof.
  induction s as [|a s IH]; simpl; [discriminate|].
  destruct (isspace a) eqn:E; auto. intros [= <- <-]. exact E.
Qed.

Lemma lstrip_idem s : lstrip (lstrip s) = lstrip s.
Proof.
  induction s as [|a s IH]; simpl; auto.
  destruct (isspace a) eqn:E; auto. simpl. now rewrite E.
Qed.

(** What [lstrip] drops is a prefix. *)
Lemma lstrip_suffix s : exists ws, s = ws ++ lstrip s.
Proof.
  induction s as [|a s [ws IH]]; simpl.
  - now exists [].
  - destruct (isspace a).
    + exists (a :: ws). simpl. now f_equal.
    + now exists [].
Qed.

Lemma rstrip_prefix s : exists ws, s = rstrip s ++ ws.
Proof.
  unfold rstrip. destruct (lstrip_suffix (rev s)) as [ws Hws].
  exists (rev ws). rewrite <- rev_app_distr, <- Hws. now rewrite rev_involutive.
Qed.

Lemma rstrip_idem s : rstrip (rstrip s) = rstrip s.
Proof. unfold rstrip. now rewrite rev_involutive, lstrip_idem. Qed.

Lemma strip_idem s : strip (strip s) = strip s.
Proof.
  unfold strip.
  assert (H : lstrip (rstrip (lstrip s)) = rstrip (lstrip s)).
  { destruct (rstrip_prefix (lstrip s)) as [ws Hws].
    destruct (rstrip (lstrip s)) as [|c r] eqn:E; auto.
    simpl in Hws. apply lstrip_head in Hws. simpl. now rewrite Hws. }
  rewrite H. apply rstrip_idem.
Qed.

Lemma split_at_not_nil sep n acc s : split_at sep n acc s <> [].
Proof.
  revert n acc. induction s as [|c r IH]; intros n acc; simpl; [discriminate|].
  destruct n; [discriminate|]. destruct (c =? sep); [discriminate|apply IH].
Qed.

Lemma join_cons sep p l : l <> [] -> join sep (p :: l) = p ++ sep :: join sep l.
Proof. destruct l; [contradiction|reflexivity]. Qed.

(** Splitting loses nothing: joining the parts gives the line back. *)
Lemma split_at_join sep n acc s : join sep (split_at sep n acc s) = acc ++ s.
Proof.
  revert n acc. induction s as [|c r IH]; intros n acc; simpl.
  - now rewrite app_nil_r.
  - destruct n; [reflexivity|].
    destruct (N.eqb_spec c sep) as [->|Hne].
    + rewrite join_cons by apply split_at_not_nil. now rewrite IH.
    + rewrite IH, <- app_assoc. reflexivity.
Qed.

Lemma split_at_free sep n acc a :
  ~ In sep a -> split_at sep n acc a = [acc ++ a].
Proof.
  revert n acc. induction a as [|c a IH]; intros n acc Hni; simpl.
  - now rewrite app_nil_r.
  - destruct n; [reflexivity|].
    destruct (N.eqb_spec c sep) as [->|Hne].
    + exfalso. apply Hni. now left.
    + rewrite IH, <- app_assoc; [reflexivity|]. intros Hin. apply Hni. now right.
Qed.

Lemma split_at_first sep n acc a rest :
  ~ In sep a ->
  split_at sep (S n) acc (a ++ sep :: rest) = (acc ++ a) :: split_at sep n [] rest.
Proof.
  revert acc. induction a as [|c a IH]; intros acc Hni; simpl.
  - now rewrite N.eqb_refl, app_nil_r.
  - destruct (N.eqb_spec c sep) as [->|Hne].
    + exfalso. apply Hni. now left.
    + rewrite IH, <- app_assoc; [reflexivity|]. intros Hin. apply Hni. now right.
Qed.

(** A split that gives two parts or more found the separator. *)
Lemma split_at_second sep n acc s p q l :
  split_at sep n acc s = p :: q :: l ->
  exists m a rest,
    n = S m /\ s = a ++ sep :: rest /\ ~ In sep a /\ p = acc ++ a /\
    split_at sep m [] rest = q :: l.
Proof.
  revert n acc. induction s as [|c r IH]; intros n acc; simpl; [discriminate|].
  destruct n as [|m]; [discriminate|].
  destruct (N.eqb_spec c sep) as [->|Hne].
  - intros [= <- Hrest]. exists m, [], r. rewrite app_nil_r. auto.
  - intros Hs. destruct (IH _ _ Hs) as (m' & a & rest & Hm & -> & Hni & -> & Hr).
    exists m', (c :: a), rest. rewrite <- app_assoc. repeat split; auto.
    intros [Heq|Hin]; [now subst|contradiction].
Qed.

Lemma split_at_zero sep acc s : split_at sep 0 acc s = [acc ++ s].
Proof. destruct s; simpl; [now rewrite app_nil_r|reflexivity]. Qed.

(** The shape of a line that [split(' ', 2)] cuts in three. *)
Lemma split_three msg p0 p1 p2 ps :
  split 32 2 msg = p0 :: p1 :: p2 :: ps ->
  ps = [] /\ msg = p0 ++ 32 :: p1 ++ 32 :: p2 /\ ~ In 32 p0 /\ ~ In 32 p1.
Proof.
  unfold split. intros Hs.
  destruct (split_at_second _ _ _ _ _ _ _ Hs)
    as (m & a & rest & Hm & -> & Ha & -> & Hs1).
  injection Hm as <-.
  destruct (split_at_second _ _ _ _ _ _ _ Hs1)
    as (m' & b & rest' & Hm' & -> & Hb & -> & Hs2).
  injection Hm' as <-. rewrite split_at_zero in Hs2.
  injection Hs2 as <- <-. auto.
Qed.

(** X1: a line [cmd target text], with one space after a command word and
    one after a target that are both free of spaces, is parsed into the
    trimmed target and the trimmed text, whenever neither is blank. *)
Theorem parse_whisper_well_formed (cmd target text : str) :
  ~ In 32 cmd -> ~ In 32 target ->
  strip target <> [] -> strip text <> [] ->
  _parse_whisper (cmd ++ 32 :: target ++ 32 :: text)
  = (Some (strip target), Some (strip text)).
Proof.
  intros Hc Ht Hnt Hnx. unfold _parse_whisper, split.
  rewrite split_at_first by assumption.
  rewrite split_at_first by assumption.
  rewrite split_at_zero. simpl.
  destruct (strip target); [now elim Hnt|].
  destruct (strip text); [now elim Hnx|]. reflexivity.
Qed.

(** X2: what [_parse_whisper] returns as target and text are the trimmed
    second part and the trimmed rest of the line as cut at its first two
    spaces; both are non-empty and already trimmed, and the target holds no
    space.  So a nickname with a space in it is the target of no command
    line. *)
Theorem parse_whisper_sound (msg target text : str) :
  _parse_whisper msg = (Some target, Some text) ->
  (exists p0 p1 p2,
     msg = p0 ++ 32 :: p1 ++ 32 :: p2 /\ ~ In 32 p0 /\ ~ In 32 p1 /\
     target = strip p1 /\ text = strip p2) /\
  target <> [] /\ text <> [] /\
  strip target = target /\ strip text = text /\
  ~ In 32 target.
Proof.
  unfold _parse_whisper.
  destruct (split 32 2 msg) as [|p0 [|p1 [|p2 ps]]] eqn:Es; try discriminate.
  destruct (split_three _ _ _ _ _ Es) as (-> & Hmsg & H0 & H1).
  destruct (strip p1) as [|c1 t1] eqn:E1; [discriminate|].
  destruct (strip p2) as [|c2 t2] eqn:E2; [discriminate|].
  intros [= <- <-]. repeat apply conj; try discriminate.
  - exists p0, p1, p2. auto.
  - rewrite <- E1. apply strip_idem.
  - rewrite <- E2. apply strip_idem.
  - rewrite <- E1. intros Hin. apply H1. now apply strip_In.
Qed.

(** ** What leaves the maps alone, and what only evicts *)

Lemma evict_all_stable P dead w :
  eviction_stable P -> P w -> P (evict_all dead w).
Proof.
  intros [_ Hev]. revert w. induction dead as [|x dead IH]; intros w Hw; auto.
  rewrite evict_all_cons. apply IH, Hev, Hw.
Qed.

Lemma broadcast_stable P message w :
  eviction_stable P -> P w -> P (snd (broadcast message w)).
Proof.
  intros HP Hw. rewrite broadcast_world.
  destruct HP as [Hreg Hev].
  apply (Hreg (evict_all (failed_sends (broadcast_events message w))
                 (mkWorld (name_by_sock w) (sockets_by_name w)
                    (trace w ++ Acquire :: broadcast_events message w))));
    [reflexivity|].
  apply evict_all_stable; [now split|].
  now apply (Hreg w).
Qed.

Lemma _remove_client_stable P s w :
  eviction_stable P -> P w -> P (snd (_remove_client s w)).
Proof.
  intros HP Hw. rewrite _remove_client_run. cbv zeta.
  assert (H1 : P (log Release (evict s (log Acquire w)))).
  { destruct HP as [Hreg Hev].
    apply (Hreg (evict s (log Acquire w))); [reflexivity|].
    apply Hev. now apply (Hreg w). }
  destruct (dict_get s (name_by_sock w)) as [[|c n]|]; simpl snd.
  - destruct HP as [Hreg _].
    now apply (Hreg (log Release (evict s (log Acquire w)))).
  - destruct HP as [Hreg Hev].
    apply (Hreg (snd (broadcast ((c :: n) ++ LEFT)
                        (log Release (evict s (log Acquire w)))))); [reflexivity|].
    apply broadcast_stable; [now split|assumption].
  - destruct HP as [Hreg _].
    now apply (Hreg (log Release (evict s (log Acquire w)))).
Qed.

Lemma route_stable P name s msg w :
  eviction_stable P -> P w -> P (snd (route name s msg w)).
Proof.
  intros HP Hw. unfold route.
  destruct (_is_whisper_command msg); [|now apply broadcast_stable].
  destruct (_parse_whisper msg) as [target text].
  destruct (truthy target && truthy text).
  - destruct target as [target|], text as [text|]; auto.
    rewrite send_whisper_run. destruct HP as [Hreg _].
    now apply (Hreg w).
  - unfold bind. rewrite try_sendall_run. destruct HP as [Hreg _].
    now apply (Hreg w).
Qed.

Lemma route_ok name s msg w : fst (route name s msg w) = Ok tt.
Proof.
  unfold route.
  destruct (_is_whisper_command msg); [|now rewrite broadcast_run].
  destruct (_parse_whisper msg) as [target text].
  destruct (truthy target && truthy text).
  - destruct target as [target|], text as [text|]; auto.
    now rewrite send_whisper_run.
  - unfold bind. now rewrite try_sendall_run.
Qed.

Lemma message_loop_step name s data rest w :
  message_loop name s (Data data :: rest) w
  = match strip data with
    | [] => message_loop name s rest w
    | _ :: _ =>
      if str_eq_dec (strip data) QUIT then (Ok tt, w)
      else message_loop name s rest (snd (route name s (strip data) w))
    end.
Proof.
  simpl. destruct (strip data) as [|c m]; auto.
  destruct (str_eq_dec (c :: m) QUIT); auto.
  unfold bind. pose proof (route_ok name s (c :: m) w) as Hok.
  destruct (route name s (c :: m) w) as [r w1]. simpl in Hok. now subst r.
Qed.

Lemma message_loop_stable P name s inputs w :
  eviction_stable P -> P w -> P (snd (message_loop name s inputs w)).
Proof.
  intros HP. revert w. induction inputs as [|[data| |e] rest IH]; intros w Hw;
    try exact Hw.
  rewrite message_loop_step. destruct (strip data) as [|c m]; auto.
  destruct (str_eq_dec (c :: m) QUIT); auto.
  apply IH. now apply route_stable.
Qed.

Lemma consistent_stable : eviction_stable consistent.
Proof.
  split.
  - intros w w' Hreg Hc. unfold registry in Hreg. injection Hreg as Hn Hs.
    unfold consistent in *. now rewrite <- Hn, <- Hs.
  - intros x w. apply evict_consistent.
Qed.

Lemma backed_stable : eviction_stable backed.
Proof.
  split.
  - intros w w' Hreg Hc. unfold registry in Hreg. injection Hreg as Hn Hs.
    unfold backed in *. now rewrite <- Hn, <- Hs.
  - intros x w. apply evict_backed.
Qed.

(** ** The negotiation *)

(** What [_negotiate_unique_name] leaves and returns. *)
Lemma negotiate_post s inputs w :
  registry (snd (_negotiate_unique_name s inputs w)) = registry w /\
  (exists evs,
     trace (snd (_negotiate_unique_name s inputs w)) = trace w ++ evs /\
     closed evs = [] /\
     forall s' p, In (s', p) (attempted evs) ->
                  s' = s /\ In p [BLANK_NAME; NAME_IN_USE]) /\
  (forall name rest,
     fst (_negotiate_unique_name s inputs w) = Ok (Some name, rest) ->
     name <> [] /\ strip name = name /\
     dict_contains name (sockets_by_name w) = false /\
     exists before data,
       inputs = map Data before ++ Data data :: rest /\ name = strip data).
Proof.
  revert w. induction inputs as [|[data| |e] inputs IH]; intros w.
  - simpl. split; [reflexivity|]. split; [|intros ? ? Hd; discriminate Hd].
    exists []. rewrite app_nil_r.
    split; [reflexivity|split; [reflexivity|intros ? ? []]].
  - destruct (str_eq_dec (strip data) []) as [Hblank|Hname].
    + rewrite negotiate_blank by assumption. cbv zeta.
      destruct (net (trace w) s BLANK_NAME) as [e|].
      * simpl. split; [reflexivity|]. split; [|intros ? ? Hd; discriminate Hd].
        exists [Sendall s BLANK_NAME (Some e)].
        split; [reflexivity|split; [reflexivity|]].
        simpl. intros s' p [[= <- <-]|[]]. auto.
      * destruct (IH (log (Sendall s BLANK_NAME None) w))
          as (Hreg & (evs & Htr & Hcl & Hre) & Hname).
        split; [exact Hreg|]. split.
        -- exists (Sendall s BLANK_NAME None :: evs). split; [|split].
           ++ rewrite Htr. simpl. now rewrite <- app_assoc.
           ++ exact Hcl.
           ++ simpl. intros s' p [[= <- <-]|Hin]; [simpl; auto|now apply Hre].
        -- intros name rest Hr.
           destruct (Hname name rest Hr) as (H1 & H2 & H3 & before & d & -> & ->).
           repeat split; auto. now exists (data :: before), d.
    + destruct (dict_contains (strip data) (sockets_by_name w)) eqn:Et.
      * rewrite negotiate_taken by assumption. cbv zeta.
        destruct (net (trace w ++ [Acquire]) s NAME_IN_USE) as [e|].
        -- simpl. split; [reflexivity|]. split; [|intros ? ? Hd; discriminate Hd].
           exists [Acquire; Sendall s NAME_IN_USE (Some e); Release]. split; [|split].
           ++ now rewrite <- !app_assoc.
           ++ reflexivity.
           ++ simpl. intros s' p [[= <- <-]|[]]. auto.
        -- destruct (IH (log Release (log (Sendall s NAME_IN_USE None) (log Acquire w))))
             as (Hreg & (evs & Htr & Hcl & Hre) & Hname').
           split; [exact Hreg|]. split.
           ++ exists ([Acquire; Sendall s NAME_IN_USE None; Release] ++ evs).
              split; [|split].
              ** rewrite Htr. simpl. now rewrite <- !app_assoc.
              ** exact Hcl.
              ** simpl. intros s' p [[= <- <-]|Hin]; [auto|now apply Hre].
           ++ intros name rest Hr.
              destruct (Hname' name rest Hr) as (H1 & H2 & H3 & before & d & -> & ->).
              repeat split; auto. now exists (data :: before), d.
      * rewrite negotiate_free by assumption. simpl. split; [reflexivity|]. split.
        -- exists [Acquire; Release]. split; [now rewrite <- app_assoc|].
           split; [reflexivity|intros ? ? []].
        -- intros name rest [= <- <-]. repeat split; auto.
           ++ apply strip_idem.
           ++ now exists [], data.
  - simpl. split; [reflexivity|]. split; [|intros ? ? Hd; discriminate Hd].
    exists []. rewrite app_nil_r.
    split; [reflexivity|split; [reflexivity|intros ? ? []]].
  - simpl. split; [reflexivity|]. split; [|intros ? ? Hd; discriminate Hd].
    exists []. rewrite app_nil_r.
    split; [reflexivity|split; [reflexivity|intros ? ? []]].
Qed.

(** X3: whatever the client sends, the negotiation leaves both maps as they
    were and sends nothing but the two re-prompts, to the client itself; a
    nickname it returns is a line the client sent, trimmed, it is not blank,
    and it was not a key of [sockets_by_name]; the [recv] results after that
    line are handed back unread. *)
Theorem negotiated_name (client_sock : sock) (inputs : list recv_result) (w : World) :
  let r := _negotiate_unique_name client_sock inputs w in
  registry (snd r) = registry w /\
  (forall s p,
     In (s, p) (attempted (events_of (_negotiate_unique_name client_sock inputs) w)) ->
     s = client_sock /\ In p [BLANK_NAME; NAME_IN_USE]) /\
  (forall name rest,
     fst r = Ok (Some name, rest) ->
     name <> [] /\ strip name = name /\
     dict_contains name (sockets_by_name w) = false /\
     exists before data,
       inputs = map Data before ++ Data data :: rest /\ name = strip data).
Proof.
  cbv zeta.
  destruct (negotiate_post client_sock inputs w)
    as (Hreg & (evs & Htr & _ & Hre) & Hname).
  split; [exact Hreg|]. split; [|exact Hname].
  now rewrite (events_of_app _ _ _ Htr).
Qed.

(** ** A whole session *)

Lemma _remove_client_ok s w : fst (_remove_client s w) = Ok tt.
Proof.
  rewrite _remove_client_run. cbv zeta.
  now destruct (dict_get s (name_by_sock w)) as [[|c n]|].
Qed.

Lemma _remove_client_closes_last s w :
  exists tr, trace (snd (_remove_client s w)) = tr ++ [Close s].
Proof.
  rewrite _remove_client_run. cbv zeta.
  destruct (dict_get s (name_by_sock w)) as [[|c n]|]; simpl snd;
    rewrite log_trace; eauto.
Qed.

Lemma register_run s name w :
  register s name w
  = (Ok tt,
     mkWorld (dict_set s name (name_by_sock w))
             (dict_set name s (sockets_by_name w))
             (trace w ++ [Acquire; Release])).
Proof.
  unfold register, with_clients_lock, bind, name_by_sock_set,
    sockets_by_name_set, log. simpl. now rewrite <- app_assoc.
Qed.

Lemma serve_run s c n inputs w :
  serve s (Some (c :: n)) inputs w
  = message_loop (c :: n) s inputs
      (snd (broadcast ((c :: n) ++ ENTERED) (snd (register s (c :: n) w)))).
Proof.
  unfold serve, bind. rewrite register_run. cbn [snd].
  rewrite broadcast_run. reflexivity.
Qed.

(** The [finally] block keeps what evictions keep. *)
Lemma try_finally_remove_stable P body s w :
  eviction_stable P -> P (snd (body w)) ->
  P (snd (try_finally_remove body s w)).
Proof.
  intros HP Hb. unfold try_finally_remove.
  destruct (body w) as [[[]|[]|] w1]; simpl in Hb; auto.
  - now apply _remove_client_stable.
  - now apply _remove_client_stable.
  - pose proof (_remove_client_ok s w1) as Hok.
    pose proof (_remove_client_stable P s w1 HP Hb) as Hst.
    destruct (_remove_client s w1) as [r w2]. simpl in *. now subst r.
Qed.

(** A property that evictions keep, and that the insertion of the pair of
    this session keeps when the nickname is not blank and still free, holds
    after [handle_client] run as one piece. *)
Lemma handle_client_stable P s inputs w :
  eviction_stable P ->
  (forall name w1,
     registry w1 = registry w -> name <> [] ->
     dict_contains name (sockets_by_name w) = false ->
     P (snd (register s name w1))) ->
  P w -> P (snd (handle_client s inputs w)).
Proof.
  intros HP Hregister Hw. unfold handle_client.
  apply try_finally_remove_stable; [exact HP|].
  assert (Hreg := proj1 HP).
  unfold handle_client_try, greet. unfold bind at 1. unfold bind at 1.
  unfold sendall.
  destruct (net (trace w) s PROMPT) as [e|].
  - simpl. now apply (Hreg w).
  - set (w0 := log (Sendall s PROMPT None) w).
    destruct (negotiate_post s inputs w0) as (Hr & _ & Hname).
    destruct (_negotiate_unique_name s inputs w0) as [[[name rest]|e|] w2];
      simpl in Hr, Hname |- *.
    + destruct name as [[|c n]|].
      * unfold serve, close, emit. simpl.
        apply (Hreg w); [symmetry; exact Hr|exact Hw].
      * rewrite serve_run.
        destruct (Hname (c :: n) rest eq_refl) as (Hne & _ & Hfree & _).
        apply message_loop_stable; [exact HP|].
        apply broadcast_stable; [exact HP|].
        apply Hregister; auto.
      * unfold serve, close, emit. simpl.
        apply (Hreg w); [symmetry; exact Hr|exact Hw].
    + apply (Hreg w); [symmetry; exact Hr|exact Hw].
    + apply (Hreg w); [symmetry; exact Hr|exact Hw].
Qed.

(** X4: a session run as one piece keeps the registry consistent: if the
    maps agree before [handle_client] is called for a new connection, they
    agree when it returns, raises, or waits in [recv]. *)
Theorem session_keeps_consistent (client_sock : sock)
    (inputs : list recv_result) (w : World) :
  consistent w ->
  dict_get client_sock (name_by_sock w) = None ->
  consistent (snd (handle_client client_sock inputs w)).
Proof.
  intros Hc Hfresh. apply handle_client_stable; auto.
  - apply consistent_stable.
  - intros name w1 Hr Hne Hfree.
    unfold registry in Hr. injection Hr as Hn Hs.
    apply register_consistent; auto.
    + destruct Hc as (H1 & H2 & H3 & H4). unfold consistent.
      now rewrite Hn, Hs.
    + now rewrite Hn.
    + rewrite Hs. unfold dict_contains in Hfree.
      now destruct (dict_get name (sockets_by_name w)).
Qed.

Lemma dict_get_remove_Some {K V} `{EqDec K} (k k' : K) (v : V) (d : dict K V) :
  dict_get k (dict_remove k' d) = Some v -> dict_get k d = Some v.
Proof.
  destruct (eq_dec k k') as [->|Hne].
  - now rewrite dict_get_remove_same.
  - now rewrite dict_get_remove_other.
Qed.

Lemma evict_sockets_Some x n y w :
  dict_get n (sockets_by_name (evict x w)) = Some y ->
  dict_get n (sockets_by_name w) = Some y.
Proof.
  unfold evict. destruct (dict_get x (name_by_sock w)); simpl; auto.
  apply dict_get_remove_Some.
Qed.

(** X5: a session adds, changes and renames no entry of another
    connection: whatever [handle_client] does for [client_sock], an entry of
    either map that belongs to another connection afterwards was there, with
    the same nickname, before. *)
Theorem session_spares_others (client_sock : sock)
    (inputs : list recv_result) (w : World) :
  let w' := snd (handle_client client_sock inputs w) in
  (forall s n, s <> client_sock ->
               dict_get s (name_by_sock w') = Some n ->
               dict_get s (name_by_sock w) = Some n) /\
  (forall n s, s <> client_sock ->
               dict_get n (sockets_by_name w') = Some s ->
               dict_get n (sockets_by_name w) = Some s).
Proof.
  cbv zeta.
  apply (handle_client_stable
           (fun w' =>
              (forall s n, s <> client_sock ->
                           dict_get s (name_by_sock w') = Some n ->
                           dict_get s (name_by_sock w) = Some n) /\
              (forall n s, s <> client_sock ->
                           dict_get n (sockets_by_name w') = Some s ->
                           dict_get n (sockets_by_name w) = Some s))).
  - split.
    + intros w1 w2 Hr. unfold registry in Hr. injection Hr as Hn Hs.
      now rewrite Hn, Hs.
    + intros x w1 [H1 H2]. split.
      * intros s n Hs Hget. apply H1; auto. now apply evict_get_Some in Hget.
      * intros n s Hs Hget. apply H2; auto. now apply evict_sockets_Some in Hget.
  - intros name w1 Hr _ _. unfold registry in Hr. injection Hr as Hn Hs.
    rewrite register_run. simpl. split.
    + intros s n Hne Hget. rewrite dict_get_set_other in Hget by assumption.
      now rewrite <- Hn.
    + intros n s Hne Hget. destruct (str_eq_dec n name) as [->|Hnn].
      * rewrite dict_get_set_same in Hget. injection Hget as <-. contradiction.
      * rewrite dict_get_set_other in Hget by assumption. now rewrite <- Hs.
  - auto.
Qed.

(** X6: when [handle_client] ends, whether it returns or raises, the
    connection has no entry in [name_by_sock] and the last thing done was to
    close its socket; and [ConnectionResetError] never leaves
    [handle_client]. *)
Theorem session_end (client_sock : sock) (inputs : list recv_result) (w : World) :
  let r := handle_client client_sock inputs w in
  fst r <> Raise ConnectionResetError /\
  (fst r <> Blocked ->
   dict_get client_sock (name_by_sock (snd r)) = None /\
   exists tr, trace (snd r) = tr ++ [Close client_sock]).
Proof.
  cbv zeta. unfold handle_client, try_finally_remove.
  destruct (handle_client_try client_sock inputs w) as [[[]|[]|] w1].
  - rewrite (surjective_pairing (_remove_client client_sock w1)).
    rewrite _remove_client_ok. simpl. split; [discriminate|]. intros _.
    split; [apply _remove_client_get_self|apply _remove_client_closes_last].
  - rewrite (surjective_pairing (_remove_client client_sock w1)).
    rewrite _remove_client_ok. simpl. split; [discriminate|]. intros _.
    split; [apply _remove_client_get_self|apply _remove_client_closes_last].
  - rewrite (surjective_pairing (_remove_client client_sock w1)).
    rewrite _remove_client_ok. simpl. split; [discriminate|]. intros _.
    split; [apply _remove_client_get_self|apply _remove_client_closes_last].
  - simpl. split; [discriminate|]. intros Hb. now elim Hb.
Qed.

Lemma message_loop_ends name s inputs w :
  hangs_up inputs = true -> fst (message_loop name s inputs w) <> Blocked.
Proof.
  revert w. induction inputs as [|[data| |e] rest IH]; intros w Hh;
    try discriminate.
  rewrite message_loop_step. simpl in Hh.
  destruct (strip data) as [|c m]; auto.
  destruct (str_eq_dec (c :: m) QUIT); [discriminate|auto].
Qed.

Lemma negotiate_ends s inputs w :
  hangs_up inputs = true ->
  match fst (_negotiate_unique_name s inputs w) with
  | Blocked => False
  | Ok (Some _, rest) => hangs_up rest = true
  | _ => True
  end.
Proof.
  revert w. induction inputs as [|[data| |e] rest IH]; intros w Hh;
    try discriminate; simpl in Hh; try exact I.
  destruct (str_eq_dec (strip data) []) as [Hblank|Hname].
  - rewrite negotiate_blank by assumption. cbv zeta.
    destruct (net (trace w) s BLANK_NAME); [exact I|now apply IH].
  - destruct (dict_contains (strip data) (sockets_by_name w)) eqn:Et.
    + rewrite negotiate_taken by assumption. cbv zeta.
      destruct (net (trace w ++ [Acquire]) s NAME_IN_USE); [exact I|now apply IH].
    + rewrite negotiate_free by assumption. exact Hh.
Qed.

(** X7: a session whose peer closes its end, or whose connection breaks, at
    some point is not left waiting: [handle_client] ends, so (by the
    teardown) the connection is unregistered and its socket closed. *)
Theorem session_terminates (client_sock : sock) (inputs : list recv_result)
    (w : World) :
  hangs_up inputs = true ->
  let r := handle_client client_sock inputs w in
  fst r <> Blocked /\
  dict_get client_sock (name_by_sock (snd r)) = None /\
  exists tr, trace (snd r) = tr ++ [Close client_sock].
Proof.
  intros Hh. cbv zeta.
  assert (Hnb : fst (handle_client_try client_sock inputs w) <> Blocked).
  { unfold handle_client_try, greet. unfold bind at 1. unfold bind at 1.
    unfold sendall.
    destruct (net (trace w) client_sock PROMPT) as [e|]; [discriminate|].
    set (w0 := log (Sendall client_sock PROMPT None) w).
    pose proof (negotiate_ends client_sock inputs w0 Hh) as Hn.
    destruct (_negotiate_unique_name client_sock inputs w0) as [[[name rest]|e|] w2];
      simpl in Hn |- *; try discriminate; [|contradiction].
    destruct name as [[|c n]|]; try discriminate.
    rewrite serve_run. now apply message_loop_ends. }
  assert (Hb : fst (handle_client client_sock inputs w) <> Blocked).
  { unfold handle_client, try_finally_remove.
    destruct (handle_client_try client_sock inputs w) as [[[]|[]|] w1];
      simpl in Hnb; try (now elim Hnb);
      rewrite (surjective_pairing (_remove_client client_sock w1));
      rewrite _remove_client_ok; discriminate. }
  split; [exact Hb|].
  unfold handle_client, try_finally_remove in *.
  destruct (handle_client_try client_sock inputs w) as [[[]|[]|] w1];
    try (now elim Hb);
    rewrite (surjective_pairing (_remove_client client_sock w1));
    rewrite _remove_client_ok; simpl;
    (split; [apply _remove_client_get_self|apply _remove_client_closes_last]).
Qed.

(** X8: when the [sendall] of the prompt raises, nothing is read; when a
    [recv] of the message loop raises, the loop ends there.  Either way the
    teardown runs from the state reached, and then a [ConnectionResetError]
    is dropped while any other [OSError] is raised again out of
    [handle_client]. *)
Theorem io_error_teardown (name : str) (client_sock : sock) (e : exn)
    (inputs rest : list recv_result) (w : World) :
  let outcome := match e with
                 | ConnectionResetError => Ok tt
                 | OSError => Raise OSError
                 end in
  (net (trace w) client_sock PROMPT = Some e ->
   handle_client client_sock inputs w
   = (outcome,
      snd (_remove_client client_sock (log (Sendall client_sock PROMPT (Some e)) w))))
  /\
  try_finally_remove (message_loop name client_sock (RecvError e :: rest)) client_sock w
  = (outcome, snd (_remove_client client_sock w)).
Proof.
  cbv zeta. split.
  - intros Hp. unfold handle_client, try_finally_remove, handle_client_try, greet.
    unfold bind at 1. unfold bind at 1. unfold sendall. rewrite Hp.
    set (w1 := log (Sendall client_sock PROMPT (Some e)) w).
    pose proof (_remove_client_ok client_sock w1) as Hok.
    destruct (_remove_client client_sock w1) as [r w2]. simpl in Hok. subst r.
    now destruct e.
  - unfold try_finally_remove. simpl. unfold raise.
    pose proof (_remove_client_ok client_sock w) as Hok.
    destruct (_remove_client client_sock w) as [r w2]. simpl in Hok. subst r.
    now destruct e.
Qed.

Lemma broadcast_trace_events message w :
  trace (snd (broadcast message w)) = trace w ++ events_of (broadcast message) w.
Proof. now rewrite broadcast_trace, broadcast_events_of. Qed.

(** X9: a new connection whose first line is, once trimmed, a nickname
    that is neither blank nor taken is sent the prompt, gets its pair
    appended to both maps, and the join notice is then sent to every
    connection registered before and, last, to the newcomer itself; the
    session then waits for the next line. *)
Theorem join_announced (client_sock : sock) (data : str) (w : World) :
  dict_get client_sock (name_by_sock w) = None ->
  strip data <> [] ->
  dict_contains (strip data) (sockets_by_name w) = false ->
  net (trace w) client_sock PROMPT = None ->
  fst (handle_client client_sock [Data data] w) = Blocked /\
  attempted (events_of (handle_client client_sock [Data data]) w)
  = (client_sock, PROMPT)
    :: map (fun s => (s, (strip data ++ ENTERED) ++ NL))
         (dict_keys (name_by_sock w) ++ [client_sock]).
Proof.
  intros Hfresh Hne Hfree Hp.
  set (w0 := log (Sendall client_sock PROMPT None) w).
  set (w1 := log Release (log Acquire w0)).
  set (w2 := snd (register client_sock (strip data) w1)).
  assert (Hrun : handle_client client_sock [Data data] w
                 = (Blocked, snd (broadcast (strip data ++ ENTERED) w2))).
  { unfold handle_client, try_finally_remove, handle_client_try, greet.
    unfold bind at 1. unfold bind at 1. unfold sendall. rewrite Hp.
    fold w0. rewrite negotiate_free by assumption. fold w1. cbn [fst snd].
    destruct (strip data) as [|c n] eqn:E; [now elim Hne|].
    rewrite serve_run. reflexivity. }
  rewrite Hrun. split; [reflexivity|].
  erewrite events_of_app.
  2:{ rewrite Hrun. cbn [snd]. rewrite broadcast_trace_events.
      unfold w2. rewrite register_run. cbn [snd trace]. unfold w1, w0.
      simpl. rewrite <- !app_assoc. simpl. reflexivity. }
  simpl. f_equal. rewrite attempted_broadcast. cbn [name_by_sock].
  rewrite dict_keys_set. unfold dict_contains. rewrite Hfresh. reflexivity.
Qed.


Lemma close_all_run socks w :
  close_all socks w
  = (Ok tt,
     mkWorld (name_by_sock w) (sockets_by_name w) (trace w ++ map Close socks)).
Proof.
  revert w. induction socks as [|s socks IH]; intros w; simpl.
  - unfold ret. rewrite app_nil_r. now destruct w.
  - unfold bind, close, emit. rewrite IH. simpl. now rewrite <- app_assoc.
Qed.

Lemma attempted_closes (socks : list sock) : attempted (map Close socks) = [].
Proof. induction socks as [|s l IH]; simpl; auto. Qed.

(** X11: [shutdown] takes the lock, closes every registered socket in dict
    order, empties both maps, releases the lock, closes the listening socket
    and prints one line; it sends nothing to any client.  A session that then
    tears down finds no entry, so it broadcasts no departure notice. *)
Theorem shutdown_drains (server_sock client_sock : sock) (w : World) :
  shutdown server_sock w
  = (Ok tt,
     mkWorld [] []
       (trace w ++ Acquire :: map Close (dict_keys (name_by_sock w))
        ++ [Release; Close server_sock; Print SERVER_STOPPED])) /\
  attempted (events_of (shutdown server_sock) w) = [] /\
  events_of (_remove_client client_sock) (snd (shutdown server_sock w))
  = [Acquire; Release; Close client_sock].
Proof.
  assert (Hrun : shutdown server_sock w
                 = (Ok tt,
                    mkWorld [] []
                      (trace w ++ Acquire :: map Close (dict_keys (name_by_sock w))
                       ++ [Release; Close server_sock; Print SERVER_STOPPED]))).
  { unfold shutdown, with_clients_lock, bind, gets, clear_maps, close, emit.
    simpl. rewrite close_all_run. simpl. unfold log. simpl.
    repeat (rewrite <- app_assoc; simpl). reflexivity. }
  split; [exact Hrun|]. split.
  - erewrite events_of_app; [|rewrite Hrun; reflexivity].
    simpl. rewrite attempted_app. simpl. rewrite app_nil_r.
    apply attempted_closes.
  - rewrite Hrun. cbn [snd]. apply events_of_app.
    rewrite _remove_client_unregistered by reflexivity.
    simpl. rewrite <- !app_assoc. reflexivity.
Qed.

(** X12: when the target of a whisper is registered and the [sendall] to
    it raises, the sender is sent the delivery-failed notice and nothing
    else happens: unlike a broadcast, the whisper leaves the unreachable
    connection in both maps. *)
Theorem whisper_to_dead_target (sender target text : str)
    (sender_sock target_sock : sock) (e : exn) (w : World) :
  dict_get target (sockets_by_name w) = Some target_sock ->
  net (trace w) target_sock (whisper_to_target sender text) = Some e ->
  let e1 := Sendall target_sock (whisper_to_target sender text) (Some e) in
  send_whisper sender target text sender_sock w
  = (Ok tt,
     mkWorld (name_by_sock w) (sockets_by_name w)
       (trace w ++
        [e1; Sendall sender_sock SEND_FAILED
               (net (trace w ++ [e1]) sender_sock SEND_FAILED)])).
Proof.
  intros Ht He. cbv zeta. rewrite send_whisper_run.
  unfold send_whisper_events. rewrite Ht. cbv zeta. rewrite He. reflexivity.
Qed.

(** X13: after the insertion of a pair, the connection is looked up to its
    nickname and the nickname to the connection, and every other key of
    either map is looked up as before; a connection or nickname that was
    already a key keeps its place in the dict and a new one goes last. *)
Theorem register_lookup (client_sock : sock) (name : str) (w : World) :
  let w' := snd (register client_sock name w) in
  dict_get client_sock (name_by_sock w') = Some name /\
  dict_get name (sockets_by_name w') = Some client_sock /\
  (forall s, s <> client_sock ->
             dict_get s (name_by_sock w') = dict_get s (name_by_sock w)) /\
  (forall n, n <> name ->
             dict_get n (sockets_by_name w') = dict_get n (sockets_by_name w)) /\
  dict_keys (name_by_sock w')
    = (if dict_contains client_sock (name_by_sock w)
       then dict_keys (name_by_sock w)
       else dict_keys (name_by_sock w) ++ [client_sock]) /\
  dict_keys (sockets_by_name w')
    = (if dict_contains name (sockets_by_name w)
       then dict_keys (sockets_by_name w)
       else dict_keys (sockets_by_name w) ++ [name]).
Proof.
  cbv zeta. rewrite register_run. cbn [snd name_by_sock sockets_by_name].
  repeat apply conj.
  - apply dict_get_set_same.
  - apply dict_get_set_same.
  - intros s Hs. now apply dict_get_set_other.
  - intros n Hn. now apply dict_get_set_other.
  - apply dict_keys_set.
  - apply dict_keys_set.
Qed.

Lemma map_fst_filter {A B} (f : A -> bool) (l : list (A * B)) :
  map fst (filter (fun kv => f (fst kv)) l) = filter f (map fst l).
Proof.
  induction l as [|[a b] l IH]; simpl; auto.
  destruct (f a); simpl; now rewrite IH.
Qed.

(** X14: after a broadcast, the registered connections are exactly the
    connections the payload was delivered to, in the same order. *)
Theorem broadcast_survivors (message : str) (w : World) :
  NoDup (dict_keys (name_by_sock w)) ->
  dict_keys (name_by_sock (snd (broadcast message w)))
  = map fst (delivered (events_of (broadcast message) w)).
Proof.
  intros Hnd. rewrite broadcast_world. cbn [name_by_sock log].
  rewrite (evict_all_name_by_sock _ (mkWorld _ _ _)). cbn [name_by_sock].
  rewrite broadcast_events_of. simpl. rewrite delivered_app. simpl.
  rewrite app_nil_r. unfold broadcast_events.
  rewrite send_events_delivered by assumption.
  rewrite map_map. simpl. rewrite map_id.
  unfold dict_keys.
  apply (map_fst_filter
           (fun s => negb (mem_sock s
              (failed_sends (send_events (trace w ++ [Acquire]) (message ++ NL)
                               (map fst (name_by_sock w))))))).
Qed.

(** X15: in every state the server can reach, whatever the interleaving
    of its locked blocks, both dicts have unique keys, every nickname entry
    has its reverse entry, and no registered nickname is empty. *)
Theorem reachable_invariant (w : World) :
  reachable w ->
  backed w /\
  NoDup (dict_keys (sockets_by_name w)) /\
  (forall s, dict_get s (name_by_sock w) <> Some []).
Proof.
  set (P := fun w : World =>
              NoDup (dict_keys (sockets_by_name w)) /\
              (forall s, dict_get s (name_by_sock w) <> Some [])).
  assert (HP : eviction_stable P).
  { split.
    - intros w1 w2 Hr. unfold registry in Hr. injection Hr as Hn Hs.
      unfold P. now rewrite Hn, Hs.
    - intros x w1 [H1 H2]. split.
      + unfold evict. destruct (dict_get x (name_by_sock w1)); simpl; auto.
        now apply dict_keys_remove_NoDup.
      + intros s Hget. apply evict_get_Some in Hget. now apply (H2 s). }
  intros Hr. split; [now apply reachable_backed|].
  change (P w).
  induction Hr as [|s name w Hr IH Hname Hs|message w Hr IH|s w Hr IH
                   |sender target text s w Hr IH|e w Hr IH].
  - split; [constructor|discriminate].
  - destruct IH as [H1 H2]. rewrite register_run. split; simpl.
    + now apply dict_keys_set_NoDup.
    + intros s0 Hget. destruct (N.eq_dec s0 s) as [->|Hne].
      * rewrite dict_get_set_same in Hget. congruence.
      * rewrite dict_get_set_other in Hget by assumption. now apply (H2 s0).
  - now apply broadcast_stable.
  - now apply _remove_client_stable.
  - rewrite send_whisper_run. exact IH.
  - exact IH.
Qed.

Lemma dict_remove_set_fresh {K V} `{EqDec K} (k : K) (v : V) (d : dict K V) :
  dict_get k d = None -> dict_remove k (dict_set k v d) = d.
Proof.
  induction d as [|[k' v'] d IH]; simpl.
  - intros _. destruct (eq_dec k k); [reflexivity|contradiction].
  - destruct (eq_dec k k') as [->|Hne]; [discriminate|]. intros Hget. simpl.
    destruct (eq_dec k k'); [contradiction|]. f_equal. now apply IH.
Qed.

(** X16: inserting the pair of a connection that has no entry, under a
    nickname that is free, and then removing the connection with
    [_unsafe_remove] gives back both maps exactly as they were. *)
Theorem register_then_remove (client_sock : sock) (name : str) (w : World) :
  dict_get client_sock (name_by_sock w) = None ->
  dict_get name (sockets_by_name w) = None ->
  registry (snd (_unsafe_remove client_sock (snd (register client_sock name w))))
  = registry w.
Proof.
  intros Hs Hn. rewrite _unsafe_remove_run, register_run. cbn [snd].
  unfold evict, registry. cbn [name_by_sock sockets_by_name trace].
  rewrite dict_get_set_same. cbn [name_by_sock sockets_by_name].
  now rewrite !dict_remove_set_fresh.
Qed.

(** ** Recognising and routing a whisper command *)





End ChatServer.


Lemma w_abc_consistent : consistent w_abc.
Proof. apply consistentb_sound. reflexivity. Qed.

(** Witness for C2: three clients, every [sendall] to socket 2 raises. *)
Lemma broadcast_one_failure_witness :
  backed w_abc /\
  failed_sends (events_of (broadcast (net_dead 2) bob) w_abc) = [2] /\
  delivered (events_of (broadcast (net_dead 2) bob) w_abc)
    = [(1, bob ++ NL); (3, bob ++ NL)] /\
  dict_get 2 (name_by_sock (snd (broadcast (net_dead 2) bob w_abc))) = None /\
  (forall n, dict_get n (sockets_by_name (snd (broadcast (net_dead 2) bob w_abc)))
             <> Some 2).
Proof.
  assert (Hb : backed w_abc) by apply consistent_backed, w_abc_consistent.
  assert (Hf : failed_sends (events_of (broadcast (net_dead 2) bob) w_abc) = [2])
    by reflexivity.
  destruct (broadcast_one_failure (net_dead 2) bob w_abc 2 Hb Hf)
    as (_ & Hdel & _ & Hget & Habs).
  split; [exact Hb|]. split; [exact Hf|]. split; [exact Hdel|].
  split; [exact Hget|exact Habs].
Defined.

(** Witness for X17: the same broadcast; the entries of clients 1 and 3
    are untouched. *)
Lemma eviction_frame_witness :
  registry (snd (broadcast (net_dead 2) bob w_abc))
    = ([(1, alice); (3, carol)], [(alice, 1); (carol, 3)]) /\
  closed (events_of (broadcast (net_dead 2) bob) w_abc) = [] /\
  events_of (_remove_client (net_dead 2) 2) (snd (broadcast (net_dead 2) bob w_abc))
    = [Acquire; Release; Close 2].
Proof.
  assert (Hb : backed w_abc) by apply consistent_backed, w_abc_consistent.
  assert (Hin : In 2 (failed_sends (events_of (broadcast (net_dead 2) bob) w_abc)))
    by (left; reflexivity).
  destruct (eviction_frame (net_dead 2) bob w_abc 2 Hb Hin)
    as (_ & _ & Hcl & _ & Hrm & Hn & _ & Hs).
  split; [|split; [exact Hcl|exact Hrm]].
  unfold registry. rewrite Hn, (Hs w_abc_consistent). reflexivity.
Defined.

(** C1 as stated fails: in a broadcast to two clients both sends are made
    while the lock is held; and a whisper that finds its target never takes
    the lock. *)
Lemma broadcast_sends_holding_lock :
  ~ no_send_under_lock (events_of (broadcast net_ok hi_there) w_ab) /\
  delivered (events_of (send_whisper net_ok alice bob hi_there 1) w_ab)
    = [(2, whisper_to_target alice hi_there);
       (1, whisper_to_sender alice bob hi_there)] /\
  acquisitions (events_of (send_whisper net_ok alice bob hi_there 1) w_ab) = O.
Proof.
  repeat apply conj; try reflexivity.
  unfold no_send_under_lock. vm_compute. discriminate.
Qed.

(** C4 as stated fails on "logged": the echo of a whisper from client 1
    raises, and the events are the two sends and nothing else. *)
Lemma whisper_echo_failure_not_logged :
  events_of (send_whisper (net_dead 1) alice bob hi_there 1) w_ab
  = [Sendall 2 (whisper_to_target alice hi_there) None;
     Sendall 1 (whisper_to_sender alice bob hi_there) (Some OSError)] /\
  ~ logged (events_of (send_whisper (net_dead 1) alice bob hi_there 1) w_ab).
Proof.
  split; [reflexivity|]. unfold logged. vm_compute. intros H. now apply H.
Qed.

(** Witness for C4: scenario B of the specification. *)
Lemma whisper_delivery_witness :
  send_whisper net_ok alice bob hi_there 1 w_ab
  = (Ok tt,
     mkWorld (name_by_sock w_ab) (sockets_by_name w_ab)
       [Sendall 2 (u "(귓속말) alice> hi there" ++ NL) None;
        Sendall 1 (u "(귓속말) alice -> bob> hi there" ++ NL) None]).
Proof.
  exact (whisper_delivery net_ok alice bob hi_there 1 2 w_ab eq_refl eq_refl).
Defined.

(** Witness for C5: [/w bob] has two parts; nobody is called carol. *)
Lemma failed_whisper_notice_witness :
  route ascii_lower net_ok alice 1 (u "/w bob") w_ab
    = (Ok tt, log (Sendall 1 USAGE None) w_ab) /\
  route ascii_lower net_ok alice 1 (u "/w carol hi") w_ab
    = (Ok tt, log (Sendall 1 (not_found_notice carol) None) w_ab).
Proof.
  split.
  - apply (failed_whisper_notice ascii_lower net_ok alice (u "/w bob") 1 w_ab);
      [reflexivity|]. left. vm_compute. lia.
  - apply (failed_whisper_notice ascii_lower net_ok alice (u "/w carol hi") 1 w_ab)
      with (text := u "hi"); reflexivity.
Defined.


(** Witness for C6: a third client answers the prompt with a blank line,
    then with a nickname in use, and disconnects. *)
Lemma negotiation_rejections_witness :
  exists r evs,
    handle_client ascii_lower net_ok 3 (map Data [u "  "; bob] ++ [EOF]) w_ab
    = (r, mkWorld (name_by_sock w_ab) (sockets_by_name w_ab) (trace w_ab ++ evs))
    /\ r <> Blocked
    /\ (forall s' p, In (s', p) (attempted evs) ->
                     s' = 3 /\ In p [PROMPT; BLANK_NAME; NAME_IN_USE]).
Proof.
  apply (negotiation_rejections ascii_lower net_ok 3 [] [u "  "; bob] [] w_ab).
  - apply Forall_cons; [left; reflexivity|].
    apply Forall_cons; [right; reflexivity|]. apply Forall_nil.
  - reflexivity.
Defined.

(** Witness for C7: alice sends the quit token; bob is told. *)
Lemma quit_or_eof_teardown_witness :
  message_loop ascii_lower net_ok alice 1 [Data QUIT] w_ab = (Ok tt, w_ab) /\
  attempted (events_of (_remove_client net_ok 1) w_ab) = [(2, (alice ++ LEFT) ++ NL)] /\
  closed (events_of (_remove_client net_ok 1) w_ab) = [1].
Proof.
  assert (Hq : Data QUIT = EOF \/ exists data, Data QUIT = Data data /\ strip data = QUIT)
    by (right; exists QUIT; split; reflexivity).
  destruct (quit_or_eof_teardown ascii_lower net_ok alice 1 (Data QUIT) [] w_ab Hq)
    as (Hloop & _ & _ & _ & Hdep & _ & Hcl).
  split; [exact Hloop|]. split; [|exact Hcl].
  apply (Hdep alice); [reflexivity|discriminate].
Defined.

(** C7 as stated fails on "if and only if a nickname had been registered":
    carol (socket 3) joins alice and bob; every [sendall] to her socket after
    the prompt raises, so her own join notice evicts her; when she sends the
    quit token, no departure notice is sent to anyone. *)
Lemma evicted_session_no_departure :
  events_of (handle_client ascii_lower (net_dies 3) 3 [Data carol; Data QUIT]) w_ab
  = [Sendall 3 PROMPT None;
     Acquire; Release;
     Acquire; Release;
     Acquire;
     Sendall 1 ((carol ++ ENTERED) ++ NL) None;
     Sendall 2 ((carol ++ ENTERED) ++ NL) None;
     Sendall 3 ((carol ++ ENTERED) ++ NL) (Some OSError);
     Release;
     Acquire; Release;
     Close 3] /\
  ~ In ((carol ++ LEFT) ++ NL)
       (map snd (attempted
          (events_of (handle_client ascii_lower (net_dies 3) 3 [Data carol; Data QUIT])
             w_ab))).
Proof.
  split; [reflexivity|]. vm_compute. intros [H|[H|[H|[H|[]]]]]; discriminate.
Qed.

(** C3 fails on the code: two sessions submit the same free nickname; each
    passes the check of [_negotiate_unique_name] (lines 195-204) before the
    other inserts its pair (lines 113-115).  Afterwards both sessions are in
    their message loop, waiting in [recv]; both connections carry the
    nickname and the nickname map knows only the second. *)
Theorem duplicate_nickname_race :
  let w1 := snd (greet net_ok 1 [Data alice] initial) in
  let w2 := snd (greet net_ok 2 [Data alice] w1) in
  let w3 := snd (serve ascii_lower net_ok 1 (Some alice) [] w2) in
  let w4 := snd (serve ascii_lower net_ok 2 (Some alice) [] w3) in
  fst (greet net_ok 1 [Data alice] initial) = Ok (Some alice, []) /\
  fst (greet net_ok 2 [Data alice] w1) = Ok (Some alice, []) /\
  fst (serve ascii_lower net_ok 1 (Some alice) [] w2) = Blocked /\
  fst (serve ascii_lower net_ok 2 (Some alice) [] w3) = Blocked /\
  registry w4 = ([(1, alice); (2, alice)], [(alice, 2)]) /\
  dict_get 1 (name_by_sock w4) = Some alice /\
  dict_get alice (sockets_by_name w4) = Some 2 /\
  ~ consistent w4.
Proof.
  cbv zeta. repeat apply conj; try reflexivity.
  intros (_ & _ & Hag & _).
  assert (H : dict_get alice [(alice, 2)] = Some 1)
    by (apply (Hag 1 alice); reflexivity).
  vm_compute in H. discriminate.
Qed.

(** Witness for X1: [/w bob  hi there ], with blanks around the text. *)
Lemma parse_whisper_well_formed_witness :
  _parse_whisper (u "/w" ++ 32 :: bob ++ 32 :: u " hi there ")
  = (Some bob, Some hi_there).
Proof.
  apply (parse_whisper_well_formed (u "/w") bob (u " hi there ")).
  - vm_compute. intros [H|[H|[]]]; discriminate.
  - vm_compute. intros [H|[H|[H|[]]]]; discriminate.
  - vm_compute. discriminate.
  - vm_compute. discriminate.
Defined.

(** Witness for X2. *)
Lemma parse_whisper_sound_witness :
  strip bob = bob /\ strip hi_there = hi_there /\ ~ In 32 bob.
Proof.
  destruct (parse_whisper_sound (u "/w bob hi there") bob hi_there eq_refl)
    as (_ & _ & _ & Hb & Hh & Hsp).
  auto.
Defined.

(** Witness for X3: a blank line, a taken nickname, then a free one. *)
Lemma negotiated_name_witness :
  carol <> [] /\ strip carol = carol /\
  dict_contains carol (sockets_by_name w_ab) = false.
Proof.
  destruct (negotiated_name net_ok 3 [Data (u " "); Data bob; Data carol; EOF] w_ab)
    as (_ & _ & Hname).
  destruct (Hname carol [EOF] eq_refl) as (H1 & H2 & H3 & _).
  auto.
Defined.

(** Witness for X4: carol joins alice and bob, chats, whispers and leaves. *)
Lemma session_keeps_consistent_witness :
  consistent
    (snd (handle_client ascii_lower net_ok 3
            [Data carol; Data hi_there; Data (u "/w bob hi"); EOF] w_ab)).
Proof.
  apply (session_keeps_consistent ascii_lower net_ok 3).
  - apply consistentb_sound. reflexivity.
  - reflexivity.
Defined.

(** Witness for X7. *)
Lemma session_terminates_witness :
  fst (handle_client ascii_lower net_ok 3 [Data carol; Data hi_there; EOF] w_ab)
  <> Blocked.
Proof.
  apply (session_terminates ascii_lower net_ok 3
           [Data carol; Data hi_there; EOF] w_ab eq_refl).
Defined.

(** Witness for X9: carol joins alice and bob. *)
Lemma join_announced_witness :
  attempted (events_of (handle_client ascii_lower net_ok 3 [Data carol]) w_ab)
  = [(3, PROMPT);
     (1, (carol ++ ENTERED) ++ NL);
     (2, (carol ++ ENTERED) ++ NL);
     (3, (carol ++ ENTERED) ++ NL)].
Proof.
  apply (join_announced ascii_lower net_ok 3 carol w_ab); try reflexivity.
  vm_compute. discriminate.
Defined.


(** Witness for X12: bob's socket is dead; he stays registered. *)
Lemma whisper_to_dead_target_witness :
  send_whisper (net_dead 2) alice bob hi_there 1 w_ab
  = (Ok tt,
     mkWorld (name_by_sock w_ab) (sockets_by_name w_ab)
       [Sendall 2 (whisper_to_target alice hi_there) (Some OSError);
        Sendall 1 SEND_FAILED None]).
Proof.
  exact (whisper_to_dead_target (net_dead 2) alice bob hi_there 1 2 OSError w_ab
           eq_refl eq_refl).
Defined.

(** Witness for X14: the broadcast in which socket 2 is dead. *)
Lemma broadcast_survivors_witness :
  dict_keys (name_by_sock (snd (broadcast (net_dead 2) hi_there w_abc))) = [1; 3].
Proof.
  rewrite (broadcast_survivors (net_dead 2) hi_there w_abc).
  - reflexivity.
  - apply w_abc_consistent.
Defined.

(** Witness for X15: the state after the race of two sessions over one
    nickname. *)
Lemma reachable_invariant_witness :
  backed (snd (register 2 alice (snd (register 1 alice initial)))).
Proof.
  apply (reachable_invariant net_ok).
  apply reach_register; [|discriminate|reflexivity].
  apply reach_register; [|discriminate|reflexivity].
  apply reach_initial.
Defined.

(** Witness for X16: carol joins alice and bob and is removed. *)
Lemma register_then_remove_witness :
  registry (snd (_unsafe_remove 3 (snd (register 3 carol w_ab)))) = registry w_ab.
Proof. apply register_then_remove; reflexivity. Defined.

(** C9 fails on the code, by the defect of C3: after the race of two
    sessions over one nickname, the third [sendall] to socket 1, made by the
    join broadcast of the second session, raises.  The eviction of
    connection 1 pops the nickname entry of [alice], which points to
    connection 2: connection 2 was delivered the notice and keeps its entry
    in [name_by_sock], but is the value of no nickname any more. *)
Theorem eviction_drops_other_entry :
  let net := net_dies_after 2 1 in
  let w1 := snd (greet net 1 [Data alice] initial) in
  let w2 := snd (greet net 2 [Data alice] w1) in
  let w3 := snd (serve ascii_lower net 1 (Some alice) [] w2) in
  let w4 := snd (register 2 alice w3) in
  let w5 := snd (broadcast net (alice ++ ENTERED) w4) in
  registry w4 = ([(1, alice); (2, alice)], [(alice, 2)]) /\
  failed_sends (events_of (broadcast net (alice ++ ENTERED)) w4) = [1] /\
  delivered (events_of (broadcast net (alice ++ ENTERED)) w4)
    = [(2, (alice ++ ENTERED) ++ NL)] /\
  dict_get alice (sockets_by_name w4) = Some 2 /\
  dict_get alice (sockets_by_name w5) = None /\
  registry w5 = ([(2, alice)], []) /\
  serve ascii_lower net 2 (Some alice) [] w3 = (Blocked, w5).
Proof. cbv zeta. repeat apply conj; reflexivity. Qed.
